(** * whatsapp_chat_reader: embedding and verification

    A shallow embedding of [whatsapp_chat_reader.py]: the line parser
    [split_chat_line] and the class [WhatsAppChatReader] with its reading
    loop, its queries and its two mutations.

    - A Python [str] is a sequence of Unicode code points: a [list N].
    - A chat entry is a dict with the four fixed keys ['Date'], ['Time'],
      ['Person'], ['Message'] and values of type [Optional[str]]: a record
      of four [option str].
    - Every dict of [__chat] is made by one call of [split_chat_line] and
      stands at one position of the list only, so the list of references is
      a list of records, and an update in place is an update at an index.
    - Code that can raise returns a [result]; [Raise] carries the exception.
    - The compiled regular expression is a small program for a backtracking
      matcher, in the manner of the interpreter's own engine. *)

From Stdlib Require Import NArith List Ascii String Lia Bool.
From stdpp Require Import base option list gmap.

Local Open Scope N_scope.

(** ** Strings *)

Abbreviation char := N.
Abbreviation str := (list N).

(** An ASCII literal as a Python string. *)
Definition lit (s : string) : str :=
  (λ a, N_of_ascii a) <$> list_ascii_of_string s.

Definition LF : char := 10.
Definition COLON : char := 58.
Definition LRM : char := 8206.   (* U+200E *)
Definition RLM : char := 8207.   (* U+200F *)

Definition in_ranges (tbl : list (N * N)) (c : char) : bool :=
  existsb (λ r, (fst r <=? c) && (c <=? snd r)) tbl.

(** The code points for which [str.isspace] holds; [str.strip] without an
    argument removes exactly these. *)
Definition whitespace_table : list (N * N) :=
  [(9, 13); (28, 32); (133, 133); (160, 160); (5760, 5760); (8192, 8202);
   (8232, 8233); (8239, 8239); (8287, 8287); (12288, 12288)].

(** The decimal digits of Unicode 14.0 (general category Nd), which is what
    [\d] stands for in a [str] pattern.  Later versions of the character
    database add ranges; nothing below depends on which ones are present. *)
Definition decimal_table : list (N * N) :=
  [(48, 57); (1632, 1641); (1776, 1785); (1984, 1993); (2406, 2415);
   (2534, 2543); (2662, 2671); (2790, 2799); (2918, 2927); (3046, 3055);
   (3174, 3183); (3302, 3311); (3430, 3439); (3558, 3567); (3664, 3673);
   (3792, 3801); (3872, 3881); (4160, 4169); (4240, 4249); (6112, 6121);
   (6160, 6169); (6470, 6479); (6608, 6617); (6784, 6793); (6800, 6809);
   (6992, 7001); (7088, 7097); (7232, 7241); (7248, 7257); (42528, 42537);
   (43216, 43225); (43264, 43273); (43472, 43481); (43504, 43513);
   (43600, 43609); (44016, 44025); (65296, 65305); (66720, 66729);
   (68912, 68921); (69734, 69743); (69872, 69881); (69942, 69951);
   (70096, 70105); (70384, 70393); (70736, 70745); (70864, 70873);
   (71248, 71257); (71360, 71369); (71472, 71481); (71904, 71913);
   (72016, 72025); (72784, 72793); (73040, 73049); (73120, 73129);
   (92768, 92777); (92864, 92873); (93008, 93017); (120782, 120831);
   (123200, 123209); (123632, 123641); (125264, 125273); (130032, 130041)].

Definition isspace (c : char) : bool := in_ranges whitespace_table c.
Definition isdecimal (c : char) : bool := in_ranges decimal_table c.

(** [str.lstrip()], [str.rstrip()] and [str.strip()]. *)
Fixpoint lstrip (s : str) : str :=
  match s with
  | c :: s' => if isspace c then lstrip s' else s
  | [] => []
  end.

Definition rstrip (s : str) : str := reverse (lstrip (reverse s)).

Definition strip (s : str) : str := rstrip (lstrip s).

(** [a in b] for two strings: [a] occurs in [b] as a contiguous run. *)
Fixpoint startswith (b a : str) : bool :=
  match a, b with
  | [], _ => true
  | x :: a', y :: b' => (x =? y) && startswith b' a'
  | _ :: _, [] => false
  end.

Fixpoint str_contains (b a : str) : bool :=
  startswith b a ||
  match b with
  | [] => false
  | _ :: b' => str_contains b' a
  end.

(** Truth value of an [Optional[str]]: [None] and [''] are false. *)
Definition truthy (o : option str) : bool :=
  match o with
  | Some (_ :: _) => true
  | _ => false
  end.

(** ** Exceptions *)

Inductive exn := TypeError | ValueError.

Inductive result (A : Type) :=
  | Ok (a : A)
  | Raise (e : exn).
Arguments Ok {A} a.
Arguments Raise {A} e.

Definition bind {A B} (r : result A) (k : A → result B) : result B :=
  match r with
  | Ok a => k a
  | Raise e => Raise e
  end.

Notation "'let!' x ':=' r 'in' k" := (bind r (λ x, k))
  (at level 10, x name, r at level 100, k at level 200).

(** ** The regular expression engine

    A pattern is compiled to a flat program.  [Mark] records the current
    position (the boundaries of the capture groups), [In k] consumes one
    character of the class [k], [Max_repeat k] is the greedy [k+]: it takes
    as many characters as it can and gives them back one at a time while the
    rest of the program fails. *)
Module Re.

Inductive cls :=
  | Literal (c : char)        (* the character c *)
  | Not_literal (c : char)    (* [^c] *)
  | Category_digit            (* \d *)
  | Any.                      (* .  : anything but a line feed *)

Definition cls_ok (k : cls) (c : char) : bool :=
  match k with
  | Literal x => c =? x
  | Not_literal x => negb (c =? x)
  | Category_digit => isdecimal c
  | Any => negb (c =? LF)
  end.

Inductive op :=
  | At_beginning              (* ^ *)
  | At_end                    (* $ *)
  | Mark
  | In (k : cls)
  | Max_repeat (k : cls).     (* k+ *)

Fixpoint max_repeat {R} (k : cls) (cont : nat → str → option R)
    (pos : nat) (rest : str) : option R :=
  match rest with
  | c :: rest' =>
      if cls_ok k c then
        match max_repeat k cont (S pos) rest' with
        | Some r => Some r
        | None => cont (S pos) rest'
        end
      else None
  | [] => None
  end.

(** [run prog pos rest marks]: run [prog] at position [pos], where [rest] is
    the subject from [pos] on.  The result is the list of marks of the first
    successful path. *)
Fixpoint run (prog : list op) (pos : nat) (rest : str) (marks : list nat)
    : option (list nat) :=
  match prog with
  | [] => Some marks
  | At_beginning :: prog' =>
      if decide (pos = 0%nat) then run prog' pos rest marks else None
  | At_end :: prog' =>
      match rest with
      | [] => run prog' pos rest marks
      | [c] => if c =? LF then run prog' pos rest marks else None
      | _ => None
      end
  | Mark :: prog' => run prog' pos rest (marks ++ [pos])
  | In k :: prog' =>
      match rest with
      | c :: rest' => if cls_ok k c then run prog' (S pos) rest' marks else None
      | [] => None
      end
  | Max_repeat k :: prog' =>
      max_repeat k (λ pos' rest', run prog' pos' rest' marks) pos rest
  end.

(** [pattern.match(line)]: the match is tried at position 0 only. *)
Definition match_ (prog : list op) (line : str) : option (list nat) :=
  run prog 0 line [].

(** [line[a:b]] *)
Definition slice (line : str) (a b : nat) : str := take (b - a) (drop a line).

(** [match.groups()]: the marks come in pairs, one pair per group. *)
Fixpoint groups (line : str) (marks : list nat) : list str :=
  match marks with
  | a :: b :: marks' => slice line a b :: groups line marks'
  | _ => []
  end.

End Re.

(** ** split_chat_line *)

Record ChatEntry := {
  Date : option str;
  Time : option str;
  Person : option str;
  Message : option str
}.

Definition digit2 : list Re.op := [Re.In Re.Category_digit; Re.In Re.Category_digit].
Definition chr (c : string) : list Re.op := (λ c, Re.In (Re.Literal c)) <$> lit c.

(** [^\[(\d{2}\.\d{2}\.\d{2}), (\d{2}:\d{2}:\d{2})] ([^:]+): (.+)$] *)
Definition pattern : list Re.op :=
  [Re.At_beginning] ++ chr "[" ++
  [Re.Mark] ++ digit2 ++ chr "." ++ digit2 ++ chr "." ++ digit2 ++ [Re.Mark] ++
  chr ", " ++
  [Re.Mark] ++ digit2 ++ chr ":" ++ digit2 ++ chr ":" ++ digit2 ++ [Re.Mark] ++
  chr "] " ++
  [Re.Mark; Re.Max_repeat (Re.Not_literal COLON); Re.Mark] ++
  chr ": " ++
  [Re.Mark; Re.Max_repeat Re.Any; Re.Mark] ++
  [Re.At_end].

(** [re.sub(r'[\u200e\u200f]', '', line)] *)
Definition sub_marks (line : str) : str :=
  filter (λ c, c ≠ LRM ∧ c ≠ RLM) line.

Definition no_match : ChatEntry :=
  {| Date := None; Time := None; Person := None; Message := None |}.

Definition split_chat_line (line : str) : result ChatEntry :=
  let line := sub_marks line in
  match Re.match_ pattern line with
  | Some m =>
      match Re.groups line m with
      | [date; time; person; message] =>
          Ok {| Date := Some date; Time := Some time;
                Person := Some person; Message := Some (strip message) |}
      | _ => Raise ValueError
      end
  | None => Ok no_match
  end.

(** ** Reading the file

    The file is opened in text mode, so the line ends ["\r\n"] and ["\r"]
    are read as ["\n"]; iterating over the file yields the lines with their
    line feed.  The model starts from the decoded text of the file. *)

Definition CR : char := 13.

Fixpoint universal_newlines (text : str) : str :=
  match text with
  | [] => []
  | c :: text' =>
      if c =? CR then
        match text' with
        | c' :: text'' =>
            if c' =? LF then LF :: universal_newlines text''
            else LF :: universal_newlines text'
        | [] => [LF]
        end
      else c :: universal_newlines text'
  end.

Fixpoint readlines (cur : str) (text : str) : list str :=
  match text with
  | [] => match cur with [] => [] | _ => [cur] end
  | c :: text' =>
      if c =? LF then (cur ++ [c]) :: readlines [] text'
      else readlines (cur ++ [c]) text'
  end.

Definition file_lines (text : str) : list str :=
  readlines [] (universal_newlines text).

(** ** WhatsAppChatReader *)

Module By.
Inductive t := Person | Date | Message.
End By.

Definition set_Person (element : ChatEntry) (v : option str) : ChatEntry :=
  {| Date := Date element; Time := Time element;
     Person := v; Message := Message element |}.

Definition set_Message (element : ChatEntry) (v : option str) : ChatEntry :=
  {| Date := Date element; Time := Time element;
     Person := Person element; Message := v |}.

(** [m += s] where [m] is an [Optional[str]]. *)
Definition str_iadd (m : option str) (s : str) : result (option str) :=
  match m with
  | Some m => Ok (Some (m ++ s))
  | None => Raise TypeError
  end.

(** The methods of the class, as functions of the attribute [__chat]. *)
Module WhatsAppChatReader.

(** The state of the loop of [__read_messages]: the local variable
    [current_message] and the attribute [__chat]. *)
Record reader := {
  current_message : option ChatEntry;
  chat : list ChatEntry
}.

(** One turn of the loop [for line in file]. *)
Definition read_line (st : reader) (line : str) : result reader :=
  let line := strip line in
  if decide (line = []) then Ok st
  else
    let! chat_line := split_chat_line line in
    if truthy (Date chat_line) then
      Ok {| current_message := Some chat_line;
            chat := match current_message st with
                    | Some m => chat st ++ [m]
                    | None => chat st
                    end |}
    else
      match current_message st with
      | Some m =>
          let! message := str_iadd (Message m) (LF :: line) in
          Ok {| current_message := Some (set_Message m message);
                chat := chat st |}
      | None => Ok st
      end.

Fixpoint for_lines (st : reader) (lines : list str) : result reader :=
  match lines with
  | [] => Ok st
  | line :: lines' => let! st' := read_line st line in for_lines st' lines'
  end.

Definition read_messages (lines : list str) : result (list ChatEntry) :=
  let! st := for_lines {| current_message := None; chat := [] |} lines in
  Ok (match current_message st with
      | Some m => chat st ++ [m]
      | None => chat st
      end).

(** [__init__(path)], for a file at [path] whose text is [text]: the value
    of [__chat] when the constructor returns. *)
Definition init (text : str) : result (list ChatEntry) :=
  read_messages (file_lines text).

Definition get_chat (chat : list ChatEntry) : list ChatEntry := chat.

Definition get_chat_len (chat : list ChatEntry) : nat := length chat.

(** The source returns [list(s)] for the set [s] built here; the order of
    that list is not determined by the program. *)
Definition get_persons (chat : list ChatEntry) : gset str :=
  list_to_set
    (omap Person (filter (λ element, truthy (Person element)) chat)).

Definition get_messages (chat : list ChatEntry) : list str :=
  omap Message (filter (λ element, truthy (Message element)) chat).

Definition remove_person (chat : list ChatEntry) (person : str)
    : list ChatEntry :=
  filter (λ element, Person element ≠ Some person) chat.

(** [filter_str in value] where [value] is an [Optional[str]]. *)
Definition contains (value : option str) (filter_str : str) : result bool :=
  match value with
  | Some s => Ok (str_contains s filter_str)
  | None => Raise TypeError
  end.

(** [any(filter_str in value for filter_str in filters)]: the generator is
    consumed up to the first true element. *)
Fixpoint any_in (value : option str) (filters : list str) : result bool :=
  match filters with
  | [] => Ok false
  | filter_str :: filters' =>
      let! b := contains value filter_str in
      if b then Ok true else any_in value filters'
  end.

(** [[entry for entry in chat if cond(entry)]] *)
Fixpoint comprehension (cond : ChatEntry → result bool)
    (chat : list ChatEntry) : result (list ChatEntry) :=
  match chat with
  | [] => Ok []
  | entry :: chat' =>
      let! b := cond entry in
      let! filtered := comprehension cond chat' in
      Ok (if b then entry :: filtered else filtered)
  end.

Definition get_filtered_chat (chat : list ChatEntry) (filters : list str)
    (by_ : By.t) : result (list ChatEntry) :=
  match by_ with
  | By.Person =>
      comprehension (λ entry, any_in (Person entry) filters) chat
  | By.Date =>
      comprehension (λ entry, any_in (Date entry) filters) chat
  | By.Message =>
      comprehension (λ entry, any_in (Message entry) filters) chat
  end.

(** One turn of the loop of [rename_person], at index [i] of the list: the
    dict found there is updated in place. *)
Definition rename_at (person new_name : str) (chat : list ChatEntry)
    (i : nat) : list ChatEntry :=
  match chat !! i with
  | Some element =>
      if decide (Person element = Some person)
      then <[i := set_Person element (Some new_name)]> chat
      else chat
  | None => chat
  end.

Definition rename_person (chat : list ChatEntry) (person new_name : str)
    : list ChatEntry :=
  foldl (rename_at person new_name) chat (seq 0 (length chat)).

End WhatsAppChatReader.
Import WhatsAppChatReader.

(** * Specification

    The vocabulary of the statements below. *)

(** ** The shape of a header line

    What the pattern describes, read off its text: a date and a time of
    fixed shape, a sender without a colon, a message without a line feed,
    and possibly one line feed at the very end. *)

Definition is_date (d : str) : bool :=
  match d with
  | [a; b; p; c; e; q; f; g] =>
      isdecimal a && isdecimal b && (p =? 46) && isdecimal c && isdecimal e
      && (q =? 46) && isdecimal f && isdecimal g
  | _ => false
  end.

Definition is_time (t : str) : bool :=
  match t with
  | [a; b; p; c; e; q; f; g] =>
      isdecimal a && isdecimal b && (p =? 58) && isdecimal c && isdecimal e
      && (q =? 58) && isdecimal f && isdecimal g
  | _ => false
  end.

Definition is_person (p : str) : bool :=
  negb (bool_decide (p = [])) && forallb (λ c, negb (c =? COLON)) p.

Definition is_message (m : str) : bool :=
  negb (bool_decide (m = [])) && forallb (λ c, negb (c =? LF)) m.

(** The line [[date, time] person: message]. *)
Definition header (d t p m : str) : str :=
  lit "[" ++ d ++ lit ", " ++ t ++ lit "] " ++ p ++ lit ": " ++ m.

Definition header_line (d t p m line : str) : Prop :=
  is_date d ∧ is_time t ∧ is_person p ∧ is_message m ∧
  (line = header d t p m ∨ line = header d t p m ++ [LF]).

Definition entry (d t p m : str) : ChatEntry :=
  {| Date := Some d; Time := Some t; Person := Some p; Message := Some m |}.

(** ** Stores *)

(** An entry with its four fields populated. *)
Definition stored_ok (e : ChatEntry) : Prop :=
  is_Some (Date e) ∧ is_Some (Time e) ∧ is_Some (Person e) ∧
  is_Some (Message e).

Definition reader_ok (st : reader) : Prop :=
  (∀ m, current_message st = Some m → stored_ok m) ∧
  Forall stored_ok (chat st).

(** The list [__chat] once the entry in progress, if any, is appended. *)
Definition committed (st : reader) : list ChatEntry :=
  match current_message st with
  | Some m => chat st ++ [m]
  | None => chat st
  end.

Definition prepend (ch : list ChatEntry) (st : reader) : reader :=
  {| current_message := current_message st; chat := ch ++ chat st |}.

Definition result_map {A B} (f : A → B) (r : result A) : result B :=
  match r with
  | Ok a => Ok (f a)
  | Raise e => Raise e
  end.

(** ['\n'.join(parts)] *)
Fixpoint newline_join (parts : list str) : str :=
  match parts with
  | [] => []
  | x :: parts' =>
      match parts' with
      | [] => x
      | _ :: _ => x ++ LF :: newline_join parts'
      end
  end.

(** The text that the lines [conts] add to a message: the trimmed lines,
    blank ones left out. *)
Definition continuation_texts (conts : list str) : list str :=
  filter (λ c, c ≠ []) (strip <$> conts).

(** The stores that a program can reach through the class: construction
    from a file, then removals and renamings. *)
Inductive reachable : list ChatEntry → Prop :=
  | reach_init lines chat :
      read_messages lines = Ok chat → reachable chat
  | reach_remove chat person :
      reachable chat → reachable (remove_person chat person)
  | reach_rename chat person new_name :
      reachable chat → reachable (rename_person chat person new_name).

(** The line [[date, time] sender: message] rebuilt from the four fields of
    a record: the reconstruction of the specification's round trip. *)
Definition reconstruct (e : ChatEntry) : option str :=
  match Date e, Time e, Person e, Message e with
  | Some d, Some t, Some p, Some m => Some (header d t p m)
  | _, _, _, _ => None
  end.

(** A string without directionality marks. *)
Definition no_marks (s : str) : Prop := Forall (λ c, c ≠ LRM ∧ c ≠ RLM) s.

(** What [rename_person] does to one entry. *)
Definition renamed (person new_name : str) (element : ChatEntry) : ChatEntry :=
  if decide (Person element = Some person)
  then set_Person element (Some new_name)
  else element.

(** The sender of the entry contains [filter_str]. *)
Definition person_contains (filter_str : str) (e : ChatEntry) : bool :=
  match Person e with
  | Some q => str_contains q filter_str
  | None => false
  end.

(** The field that [get_filtered_chat] looks at. *)
Definition field (by_ : By.t) (e : ChatEntry) : option str :=
  match by_ with
  | By.Person => Person e
  | By.Date => Date e
  | By.Message => Message e
  end.

(** The value [o] of a field contains one of the strings [filters]. *)
Definition contains_any (o : option str) (filters : list str) : bool :=
  match o with
  | Some s => existsb (str_contains s) filters
  | None => false
  end.

(** The testable property on renaming, as the specification words it: the
    filter on the new name returns exactly the entries whose sender was the
    old name. *)
Definition rename_then_filter_as_stated (chat : list ChatEntry)
    (old new : str) : Prop :=
  get_filtered_chat (rename_person chat old new) [new] By.Person =
  Ok (rename_person (filter (λ e, Person e = Some old) chat) old new).

(** The marks that the engine records on a header line. *)
Definition header_marks (p m : str) : list nat :=
  [1; 9; 11; 19; 21; 21 + length p; 23 + length p;
   23 + length p + length m]%nat.

(** A string of white space. *)
Definition spaces (s : str) : Prop := forallb isspace s = true.

(** ** A small chat

    The scenario of the specification: a message of two lines by Alice, then
    one line by Bob. *)

Definition line_hello : str := lit "[01.01.23, 10:00:00] Alice: Hello".
Definition line_there : str := lit "there".
Definition line_hi : str := lit "[01.01.23, 10:00:05] Bob: Hi!".

Definition chat_text : str :=
  line_hello ++ [LF] ++ line_there ++ [LF] ++ line_hi.

Definition alice_hello : ChatEntry :=
  entry (lit "01.01.23") (lit "10:00:00") (lit "Alice")
    (lit "Hello" ++ [LF] ++ lit "there").

Definition bob_hi : ChatEntry :=
  entry (lit "01.01.23") (lit "10:00:05") (lit "Bob") (lit "Hi!").

Definition chat_example : list ChatEntry := [alice_hello; bob_hi].

(** The same text with a left-to-right mark in front of the continuation
    line. *)
Definition marked_text : str :=
  line_hello ++ [LF] ++ [LRM] ++ line_there ++ [LF] ++ line_hi.

(** A header line with a mark in front of the bracket and white space after
    the message. *)
Definition marked_hello : str := [LRM] ++ line_hello ++ lit "  ".

(** A header line whose message is white space followed by a mark, and a
    header line with a mark in front of leading white space. *)
Definition marked_blank : str := lit "[01.01.23, 10:00:00] Alice:  " ++ [LRM].
Definition marked_indent : str := [LRM] ++ lit " " ++ line_hello.

Arguments isdecimal : simpl never.
Arguments isspace : simpl never.


(** ** More vocabulary *)

(** The lines that start an entry in the reading loop. *)
Definition is_header (l : str) : bool :=
  match Re.match_ pattern (sub_marks (strip l)) with
  | Some _ => true
  | None => false
  end.

Definition header_count (lines : list str) : nat :=
  length (filter (λ l, is_header l) lines).

(** An entry as the constructor builds it: a date, a time and a sender of
    the shape of the pattern and without marks, and some message. *)
Definition parsed (e : ChatEntry) : Prop :=
  (∃ d, Date e = Some d ∧ is_date d ∧ no_marks d) ∧
  (∃ t, Time e = Some t ∧ is_time t ∧ no_marks t) ∧
  (∃ p, Person e = Some p ∧ is_person p ∧ no_marks p) ∧
  is_Some (Message e).

(** [P] holds of the entry in progress and of the entries in [__chat]. *)
Definition reader_inv (P : ChatEntry → Prop) (st : reader) : Prop :=
  (∀ m, current_message st = Some m → P m) ∧ Forall P (chat st).

(** [a] occurs in [b] as a contiguous run. *)
Definition substring (a b : str) : Prop := ∃ l r, b = l ++ a ++ r.

(** The text with every line feed written as carriage return, line feed. *)
Fixpoint crlf (text : str) : str :=
  match text with
  | [] => []
  | c :: text' => if c =? LF then CR :: LF :: crlf text' else c :: crlf text'
  end.

(** Some lines that are no header lines, and a chat with a renamed entry. *)
Definition junk_lines : list str := [lit "Messages are encrypted."; [LF]].
Definition chat_lines : list str :=
  [line_hello ++ [LF]; line_there ++ [LF]; line_hi].
Definition carol_hi : ChatEntry :=
  entry (lit "01.01.23") (lit "10:00:09") (lit "Carol") (lit "Hi Bob").
Definition chat_three : list ChatEntry := [alice_hello; bob_hi; carol_hi].
(** * Verification *)

(** ** The engine on the header pattern *)

Lemma pattern_eq :
  pattern =
  [Re.At_beginning; Re.In (Re.Literal 91); Re.Mark;
   Re.In Re.Category_digit; Re.In Re.Category_digit; Re.In (Re.Literal 46);
   Re.In Re.Category_digit; Re.In Re.Category_digit; Re.In (Re.Literal 46);
   Re.In Re.Category_digit; Re.In Re.Category_digit; Re.Mark;
   Re.In (Re.Literal 44); Re.In (Re.Literal 32); Re.Mark;
   Re.In Re.Category_digit; Re.In Re.Category_digit; Re.In (Re.Literal 58);
   Re.In Re.Category_digit; Re.In Re.Category_digit; Re.In (Re.Literal 58);
   Re.In Re.Category_digit; Re.In Re.Category_digit; Re.Mark;
   Re.In (Re.Literal 93); Re.In (Re.Literal 32); Re.Mark;
   Re.Max_repeat (Re.Not_literal 58); Re.Mark;
   Re.In (Re.Literal 58); Re.In (Re.Literal 32); Re.Mark;
   Re.Max_repeat Re.Any; Re.Mark; Re.At_end].
Proof. reflexivity. Qed.

Lemma header_eq d t p m :
  header d t p m = 91 :: d ++ 44 :: 32 :: t ++ 93 :: 32 :: p ++ 58 :: 32 :: m.
Proof. reflexivity. Qed.

Section max_repeat.
Context {R : Type} (k : Re.cls) (cont : nat → str → option R).

(** A greedy repetition over a run [xs] that cannot be extended, when no
    shorter run lets the rest of the program succeed. *)
Lemma max_repeat_app xs rest pos :
  xs ≠ [] →
  forallb (Re.cls_ok k) xs = true →
  match rest with [] => True | c :: _ => Re.cls_ok k c = false end →
  (∀ ys c zs, xs = ys ++ c :: zs → ys ≠ [] →
     cont (pos + length ys)%nat (c :: zs ++ rest) = None) →
  Re.max_repeat k cont pos (xs ++ rest) = cont (pos + length xs)%nat rest.
Proof.
  revert pos. induction xs as [|x xs IH]; intros pos Hne Hall Hrest Hshort; [done|].
  simpl in Hall. apply andb_prop in Hall as [Hx Hall].
  simpl. rewrite Hx.
  destruct xs as [|x' xs].
  - simpl. replace (pos + 1)%nat with (S pos) by lia.
    destruct rest as [|c rest]; [done|]. simpl. by rewrite Hrest.
  - rewrite IH; [| done | done | done |].
    + replace (S pos + length (x' :: xs))%nat with (pos + length (x :: x' :: xs))%nat
        by (simpl; lia).
      destruct (cont _ rest) eqn:E; [done|].
      specialize (Hshort [x] x' xs eq_refl).
      simpl in Hshort. replace (pos + 1)%nat with (S pos) in Hshort by lia.
      by apply Hshort.
    + intros ys c zs Heq Hys.
      specialize (Hshort (x :: ys) c zs).
      replace (S pos + length ys)%nat with (pos + length (x :: ys))%nat by (simpl; lia).
      apply Hshort; [by rewrite Heq | done].
Qed.

(** What a successful greedy repetition has consumed. *)
Lemma max_repeat_Some rest pos r :
  Re.max_repeat k cont pos rest = Some r →
  ∃ xs rest', rest = xs ++ rest' ∧ xs ≠ [] ∧
    forallb (Re.cls_ok k) xs = true ∧
    cont (pos + length xs)%nat rest' = Some r.
Proof.
  revert pos. induction rest as [|c rest IH]; intros pos H; [done|].
  simpl in H. destruct (Re.cls_ok k c) eqn:Hc; [|done].
  destruct (Re.max_repeat k cont (S pos) rest) eqn:E.
  - injection H as ->.
    apply IH in E as (xs & rest' & -> & Hne & Hall & Hcont).
    exists (c :: xs), rest'. simpl. rewrite Hc, Hall.
    replace (pos + S (length xs))%nat with (S pos + length xs)%nat by lia.
    done.
  - exists [c], rest. simpl. rewrite Hc.
    replace (pos + 1)%nat with (S pos) by lia. done.
Qed.

End max_repeat.

Ltac bools :=
  repeat match goal with
  | H : Is_true (_ && _) |- _ => apply andb_True in H as [? ?]
  | H : Is_true (negb _) |- _ => apply negb_True in H
  | H : Is_true (_ =? _) |- _ => apply Is_true_true, N.eqb_eq in H
  | H : Is_true (isdecimal _) |- _ => apply Is_true_true in H
  | H : Is_true (forallb _ _) |- _ => apply Is_true_true in H
  | H : ¬ Is_true (bool_decide _) |- _ => rewrite bool_decide_spec in H
  end.

Lemma is_date_inv d :
  is_date d →
  ∃ a b c e f g, d = [a; b; 46; c; e; 46; f; g] ∧
    isdecimal a = true ∧ isdecimal b = true ∧ isdecimal c = true ∧
    isdecimal e = true ∧ isdecimal f = true ∧ isdecimal g = true.
Proof.
  destruct d as [|a [|b [|p [|c [|e [|q [|f [|g [|]]]]]]]]]; try done.
  simpl. intros H. bools. subst. by exists a, b, c, e, f, g.
Qed.

Lemma is_time_inv t :
  is_time t →
  ∃ a b c e f g, t = [a; b; 58; c; e; 58; f; g] ∧
    isdecimal a = true ∧ isdecimal b = true ∧ isdecimal c = true ∧
    isdecimal e = true ∧ isdecimal f = true ∧ isdecimal g = true.
Proof.
  destruct t as [|a [|b [|p [|c [|e [|q [|f [|g [|]]]]]]]]]; try done.
  simpl. intros H. bools. subst. by exists a, b, c, e, f, g.
Qed.

Lemma forallb_app_cons {A} (f : A → bool) ys c zs :
  forallb f (ys ++ c :: zs) = true → f c = true.
Proof.
  rewrite forallb_app. simpl. intros H.
  apply andb_prop in H as [_ H]. by apply andb_prop in H as [H _].
Qed.

Lemma is_person_inv p :
  is_person p →
  p ≠ [] ∧ forallb (Re.cls_ok (Re.Not_literal COLON)) p = true.
Proof. unfold is_person. intros H. bools. done. Qed.

Lemma is_message_inv m :
  is_message m → m ≠ [] ∧ forallb (Re.cls_ok Re.Any) m = true.
Proof. unfold is_message. intros H. bools. done. Qed.

Lemma pattern_complete d t p m line :
  header_line d t p m line →
  Re.match_ pattern line = Some (header_marks p m).
Proof.
  intros (Hd & Ht & Hp & Hm & Hline).
  apply is_date_inv in Hd as (a1 & a2 & a3 & a4 & a5 & a6 & -> & ? & ? & ? & ? & ? & ?).
  apply is_time_inv in Ht as (b1 & b2 & b3 & b4 & b5 & b6 & -> & ? & ? & ? & ? & ? & ?).
  apply is_person_inv in Hp as [Hp Hpc].
  apply is_message_inv in Hm as [Hm Hmc].
  assert (∃ nl, line = header [a1; a2; 46; a3; a4; 46; a5; a6]
                         [b1; b2; 58; b3; b4; 58; b5; b6] p (m ++ nl)
                ∧ (nl = [] ∨ nl = [LF])) as (nl & -> & Hnl).
  { destruct Hline as [-> | ->].
    - exists []. by rewrite app_nil_r; auto.
    - exists [LF]. rewrite !header_eq. simpl. rewrite <- !app_assoc. auto. }
  rewrite header_eq, pattern_eq. unfold Re.match_. simpl.
  repeat match goal with H : isdecimal _ = true |- _ => rewrite H; clear H end.
  simpl.
  rewrite max_repeat_app; [| done | done | done |].
  - simpl.
    rewrite max_repeat_app; [| done | done | by destruct Hnl as [-> | ->] |].
    + unfold header_marks.
      replace (S (S (21 + length p)) + length m)%nat
        with (23 + length p + length m)%nat by lia.
      destruct Hnl as [-> | ->]; simpl; done.
    + intros ys c zs -> _. simpl.
      apply forallb_app_cons in Hmc. simpl in Hmc.
      destruct (zs ++ nl); [|done].
      by destruct (c =? LF).
  - intros ys c zs -> _. simpl.
    apply forallb_app_cons in Hpc. simpl in Hpc. unfold COLON in Hpc.
    by destruct (c =? 58).
Qed.

Lemma slice_app (xs ys zs : str) :
  Re.slice (xs ++ ys ++ zs) (length xs) (length xs + length ys) = ys.
Proof.
  unfold Re.slice. rewrite drop_app_length.
  replace (length xs + length ys - length xs)%nat with (length ys) by lia.
  apply take_app_length.
Qed.

Lemma groups_header d t p m line :
  header_line d t p m line →
  Re.groups line (header_marks p m) = [d; t; p; m].
Proof.
  intros (Hd & Ht & _ & _ & Hline).
  apply is_date_inv in Hd as (a1 & a2 & a3 & a4 & a5 & a6 & -> & _).
  apply is_time_inv in Ht as (b1 & b2 & b3 & b4 & b5 & b6 & -> & _).
  assert (∃ nl, line = header [a1; a2; 46; a3; a4; 46; a5; a6]
                         [b1; b2; 58; b3; b4; 58; b5; b6] p m ++ nl)
    as (nl & ->).
  { destruct Hline as [-> | ->]; [exists []|exists [LF]]; by rewrite ?app_nil_r. }
  rewrite header_eq. unfold header_marks. cbn [Re.groups].
  set (pre := [91; a1; a2; 46; a3; a4; 46; a5; a6; 44; 32;
               b1; b2; 58; b3; b4; 58; b5; b6; 93; 32]).
  set (pre' := pre ++ p ++ [58; 32]).
  match goal with |- context [Re.slice ?l _ _] => set (L := l) end.
  assert (L = pre ++ p ++ (58 :: 32 :: m ++ nl)) as HL3
    by (subst L pre; simpl; by rewrite <- !app_assoc).
  assert (L = pre' ++ m ++ nl) as HL4
    by (subst L pre' pre; simpl; by rewrite <- !app_assoc).
  assert (length pre' = 23 + length p)%nat as Hpre'
    by (subst pre' pre; rewrite !length_app; simpl; lia).
  assert (Re.slice L 1 9 = [a1; a2; 46; a3; a4; 46; a5; a6]) as -> by done.
  assert (Re.slice L 11 19 = [b1; b2; 58; b3; b4; 58; b5; b6]) as -> by done.
  assert (Re.slice L 21 (21 + length p) = p) as ->
    by (rewrite HL3; apply (slice_app pre)).
  assert (Re.slice L (23 + length p) (23 + length p + length m) = m) as ->
    by (rewrite HL4, <- Hpre'; apply slice_app).
  done.
Qed.

Ltac eat H :=
  match type of H with
  | match ?l with [] => None | _ :: _ => _ end = Some _ =>
      destruct l as [|? ?]; [discriminate H|];
      match type of H with
      | (if ?b then _ else _) = Some _ =>
          destruct b eqn:?; [|discriminate H]
      end
  end.

Lemma pattern_sound line marks :
  Re.match_ pattern line = Some marks → ∃ d t p m, header_line d t p m line.
Proof.
  unfold Re.match_. rewrite pattern_eq. simpl. intros H.
  do 21 eat H.
  apply max_repeat_Some in H as (p & rest & -> & Hp & Hpc & H).
  simpl in H. do 2 eat H.
  apply max_repeat_Some in H as (m & nl & -> & Hm & Hmc & H).
  simpl in H.
  repeat match goal with H : (_ =? _) = true |- _ => apply N.eqb_eq in H; subst end.
  exists [n0; n1; 46; n3; n4; 46; n6; n7], [n10; n11; 58; n13; n14; 58; n16; n17], p, m.
  unfold header_line. split_and!.
  - simpl. by repeat match goal with H : isdecimal _ = true |- _ => rewrite H; clear H end.
  - simpl. by repeat match goal with H : isdecimal _ = true |- _ => rewrite H; clear H end.
  - unfold is_person. apply andb_True. split; [|by apply Is_true_true].
    apply negb_True. by rewrite bool_decide_spec.
  - unfold is_message. apply andb_True. split; [|by apply Is_true_true].
    apply negb_True. by rewrite bool_decide_spec.
  - rewrite header_eq. destruct nl as [|c [|]]; [left|right|done].
    + simpl. by rewrite app_nil_r.
    + destruct (c =? LF) eqn:E; [|done]. apply N.eqb_eq in E as ->.
      simpl. by rewrite <- !app_assoc.
Qed.

(** ** split_chat_line *)

Lemma split_chat_line_header line d t p m :
  header_line d t p m (sub_marks line) →
  split_chat_line line = Ok (entry d t p (strip m)).
Proof.
  intros H. unfold split_chat_line.
  by rewrite (pattern_complete _ _ _ _ _ H), (groups_header _ _ _ _ _ H).
Qed.

Lemma split_chat_line_other line :
  Re.match_ pattern (sub_marks line) = None →
  split_chat_line line = Ok no_match.
Proof. intros H. unfold split_chat_line. by rewrite H. Qed.

Lemma header_line_match d t p m line :
  header_line d t p m line → Re.match_ pattern line ≠ None.
Proof. intros H. by rewrite (pattern_complete _ _ _ _ _ H). Qed.

Lemma split_chat_line_cases line :
  (∃ d t p m, header_line d t p m (sub_marks line) ∧
     split_chat_line line = Ok (entry d t p (strip m))) ∨
  (Re.match_ pattern (sub_marks line) = None ∧
     split_chat_line line = Ok no_match).
Proof.
  destruct (Re.match_ pattern (sub_marks line)) as [marks|] eqn:E.
  - left. apply pattern_sound in E as (d & t & p & m & H).
    exists d, t, p, m. split; [done|]. by apply split_chat_line_header.
  - right. split; [done|]. by apply split_chat_line_other.
Qed.

(** ** strip *)

Lemma lstrip_spaces ws s : spaces ws → lstrip (ws ++ s) = lstrip s.
Proof.
  unfold spaces. induction ws as [|c ws IH]; simpl; [done|].
  intros H. apply andb_prop in H as [-> H]. auto.
Qed.

Lemma lstrip_decomp s : ∃ ws, spaces ws ∧ s = ws ++ lstrip s.
Proof.
  induction s as [|c s (ws & Hws & IH)]; [by exists []|].
  simpl. destruct (isspace c) eqn:E.
  - exists (c :: ws). unfold spaces. simpl. rewrite E. split; [done|].
    by rewrite <- IH.
  - by exists [].
Qed.

Lemma lstrip_fixed_app x r : x ≠ [] → lstrip x = x → lstrip (x ++ r) = x ++ r.
Proof.
  destruct x as [|c x]; [done|]. intros _ H. simpl in *.
  destruct (isspace c); [|done].
  destruct (lstrip_decomp x) as (ws & _ & Hx).
  apply (f_equal length) in H, Hx. rewrite length_app in Hx. simpl in H. lia.
Qed.

Lemma lstrip_idemp s : lstrip (lstrip s) = lstrip s.
Proof.
  induction s as [|c s IH]; [done|]. simpl.
  destruct (isspace c) eqn:E; [done|]. simpl. by rewrite E.
Qed.

Lemma lstrip_all_spaces ws : spaces ws → lstrip ws = [].
Proof. intros H. rewrite <- (app_nil_r ws). by rewrite lstrip_spaces. Qed.

Lemma spaces_reverse ws : spaces ws → spaces (reverse ws).
Proof.
  unfold spaces. rewrite !forallb_forall. intros H c Hc.
  apply H. apply list_elem_of_In. apply list_elem_of_In in Hc.
  by apply elem_of_reverse.
Qed.

Lemma spaces_app ws1 ws2 : spaces ws1 → spaces ws2 → spaces (ws1 ++ ws2).
Proof. unfold spaces. rewrite forallb_app. by intros -> ->. Qed.

Lemma rstrip_spaces s ws : spaces ws → rstrip (s ++ ws) = rstrip s.
Proof.
  intros H. unfold rstrip. rewrite reverse_app.
  by rewrite lstrip_spaces by by apply spaces_reverse.
Qed.

Lemma rstrip_decomp s : ∃ ws, spaces ws ∧ s = rstrip s ++ ws.
Proof.
  destruct (lstrip_decomp (reverse s)) as (ws & Hws & H).
  exists (reverse ws). split; [by apply spaces_reverse|].
  unfold rstrip. rewrite <- reverse_app, <- H. by rewrite reverse_involutive.
Qed.

Lemma rstrip_fixed_app l x : x ≠ [] → rstrip x = x → rstrip (l ++ x) = l ++ x.
Proof.
  unfold rstrip. intros Hx H. rewrite reverse_app.
  rewrite lstrip_fixed_app.
  - by rewrite <- reverse_app, reverse_involutive.
  - intros E. apply (f_equal reverse) in E.
    by rewrite reverse_involutive in E.
  - apply (f_equal reverse) in H. by rewrite reverse_involutive in H.
Qed.

Lemma rstrip_idemp s : rstrip (rstrip s) = rstrip s.
Proof. unfold rstrip. by rewrite reverse_involutive, lstrip_idemp. Qed.

Lemma rstrip_all_spaces ws : spaces ws → rstrip ws = [].
Proof.
  intros H. unfold rstrip.
  by rewrite lstrip_all_spaces by by apply spaces_reverse.
Qed.

(** The two ends of a stripped string are fixed by both strips. *)
Lemma lstrip_strip s : lstrip (strip s) = strip s.
Proof.
  unfold strip. destruct (rstrip_decomp (lstrip s)) as (ws & _ & H).
  destruct (rstrip (lstrip s)) as [|c x] eqn:E; [done|].
  pose proof (lstrip_idemp s) as Hi. rewrite H in Hi. simpl in *.
  destruct (isspace c); [|done].
  destruct (lstrip_decomp (x ++ ws)) as (ws' & _ & Hx).
  apply (f_equal length) in Hi, Hx. simpl in Hi. rewrite !length_app in *. lia.
Qed.

Lemma rstrip_strip s : rstrip (strip s) = strip s.
Proof. apply rstrip_idemp. Qed.

Lemma strip_decomp s : ∃ l r, spaces l ∧ spaces r ∧ s = l ++ strip s ++ r.
Proof.
  destruct (lstrip_decomp s) as (l & Hl & H1).
  destruct (rstrip_decomp (lstrip s)) as (r & Hr & H2).
  exists l, r. split_and!; [done..|]. unfold strip. by rewrite <- H2.
Qed.

(** [strip] is determined by the decomposition. *)
Lemma strip_unique s l x r :
  spaces l → spaces r → lstrip x = x → rstrip x = x →
  s = l ++ x ++ r → strip s = x.
Proof.
  intros Hl Hr Hxl Hxr ->. unfold strip. rewrite lstrip_spaces by done.
  destruct (decide (x = [])) as [->|Hx].
  - simpl. by rewrite lstrip_all_spaces.
  - rewrite lstrip_fixed_app by done. by rewrite rstrip_spaces.
Qed.

Lemma strip_idemp s : strip (strip s) = strip s.
Proof.
  apply (strip_unique _ [] _ []); try done;
    [apply lstrip_strip | apply rstrip_strip | by rewrite app_nil_r].
Qed.

Lemma strip_spaces l s r : spaces l → spaces r → strip (l ++ s ++ r) = strip s.
Proof.
  intros Hl Hr. destruct (strip_decomp s) as (l' & r' & Hl' & Hr' & Hs).
  apply (strip_unique _ (l ++ l') _ (r' ++ r));
    [by apply spaces_app | by apply spaces_app
    | apply lstrip_strip | apply rstrip_strip |].
  rewrite Hs at 1. by rewrite <- !app_assoc.
Qed.

Lemma strip_elem c s : c ∈ strip s → c ∈ s.
Proof.
  destruct (strip_decomp s) as (l & r & _ & _ & Hs). intros H.
  rewrite Hs. rewrite !elem_of_app. auto.
Qed.

(** ** The reading loop *)

Lemma header_line_nonempty d t p m line : header_line d t p m line → line ≠ [].
Proof. intros (_ & _ & _ & _ & [-> | ->]); by rewrite header_eq. Qed.

Lemma is_date_truthy d : is_date d → truthy (Some d) = true.
Proof. by destruct d. Qed.

Lemma read_line_blank st l : strip l = [] → read_line st l = Ok st.
Proof. intros H. unfold read_line. by rewrite H. Qed.

Lemma read_line_header st l d t p m :
  header_line d t p m (sub_marks (strip l)) →
  read_line st l =
    Ok {| current_message := Some (entry d t p (strip m));
          chat := committed st |}.
Proof.
  intros H. unfold read_line.
  destruct (decide (strip l = [])) as [E|_].
  { apply header_line_nonempty in H. by rewrite E in H. }
  rewrite (split_chat_line_header _ _ _ _ _ H).
  destruct H as (Hd & _). by destruct d.
Qed.

Lemma read_line_cont st l e msg :
  strip l ≠ [] →
  Re.match_ pattern (sub_marks (strip l)) = None →
  current_message st = Some e → Message e = Some msg →
  read_line st l =
    Ok {| current_message := Some (set_Message e (Some (msg ++ LF :: strip l)));
          chat := chat st |}.
Proof.
  intros Hne H Hcur Hmsg. unfold read_line.
  destruct (decide (strip l = [])) as [E|_]; [done|].
  rewrite (split_chat_line_other _ H). simpl. by rewrite Hcur, Hmsg.
Qed.

Lemma read_line_orphan st l :
  Re.match_ pattern (sub_marks (strip l)) = None →
  current_message st = None →
  read_line st l = Ok st.
Proof.
  intros H Hcur. unfold read_line.
  destruct (decide (strip l = [])) as [E|_]; [done|].
  rewrite (split_chat_line_other _ H). simpl. by rewrite Hcur.
Qed.

Lemma entry_ok d t p m : stored_ok (entry d t p m).
Proof. by repeat split. Qed.

Lemma committed_ok st : reader_ok st → Forall stored_ok (committed st).
Proof.
  intros [Hc Hch]. unfold committed.
  destruct (current_message st) as [m|]; [|done].
  apply Forall_app. split; [done|]. apply Forall_singleton. by apply Hc.
Qed.

(** A turn of the loop never raises, and keeps every entry populated. *)
Lemma read_line_ok st l :
  reader_ok st → ∃ st', read_line st l = Ok st' ∧ reader_ok st'.
Proof.
  intros Hok. destruct (decide (strip l = [])) as [E|Hne].
  { exists st. by rewrite read_line_blank. }
  destruct (split_chat_line_cases (strip l))
    as [(d & t & p & m & H & _) | [H _]].
  - eexists. rewrite (read_line_header _ _ _ _ _ _ H). split; [done|].
    split; simpl.
    + intros ? [= <-]. apply entry_ok.
    + by apply committed_ok.
  - destruct (current_message st) as [e|] eqn:Hcur.
    + destruct Hok as [Hc Hch]. destruct (Hc e Hcur) as (? & ? & ? & [msg Hmsg]).
      eexists. rewrite (read_line_cont _ _ _ _ Hne H Hcur Hmsg).
      split; [done|]. split; simpl; [|done].
      intros ? [= <-]. by repeat split.
    + exists st. by rewrite read_line_orphan.
Qed.

Lemma for_lines_ok lines st :
  reader_ok st → ∃ st', for_lines st lines = Ok st' ∧ reader_ok st'.
Proof.
  revert st. induction lines as [|l lines IH]; intros st Hok; [by exists st|].
  simpl. destruct (read_line_ok st l Hok) as (st1 & -> & Hok1). simpl. auto.
Qed.

Lemma init_reader_ok : reader_ok {| current_message := None; chat := [] |}.
Proof. split; [done|]. simpl. constructor. Qed.

Lemma read_messages_committed lines :
  ∃ st, for_lines {| current_message := None; chat := [] |} lines = Ok st ∧
        reader_ok st ∧ read_messages lines = Ok (committed st).
Proof.
  destruct (for_lines_ok lines _ init_reader_ok) as (st & H & Hok).
  exists st. split_and!; [done..|]. unfold read_messages. by rewrite H.
Qed.

(** Construction never raises. *)
Lemma read_messages_total lines : ∃ chat, read_messages lines = Ok chat.
Proof.
  destruct (read_messages_committed lines) as (st & _ & _ & H). eauto.
Qed.

Lemma for_lines_app st l1 l2 :
  for_lines st (l1 ++ l2) = (let! st' := for_lines st l1 in for_lines st' l2).
Proof.
  revert st. induction l1 as [|l l1 IH]; intros st; [done|].
  simpl. destruct (read_line st l); simpl; auto.
Qed.

(** The entries already in [__chat] are a frame of the loop. *)
Lemma read_line_prepend ch st l :
  read_line (prepend ch st) l = result_map (prepend ch) (read_line st l).
Proof.
  unfold read_line. destruct (decide (strip l = [])); [done|].
  destruct (split_chat_line (strip l)) as [chat_line|]; [|done]. simpl.
  destruct (truthy (Date chat_line)).
  - simpl. unfold prepend. simpl. f_equal. f_equal.
    destruct (current_message st); by rewrite ?app_assoc.
  - destruct (current_message st) as [m|]; [|done].
    by destruct (str_iadd (Message m) (LF :: strip l)).
Qed.

Lemma for_lines_prepend ch lines st :
  for_lines (prepend ch st) lines = result_map (prepend ch) (for_lines st lines).
Proof.
  revert st. induction lines as [|l lines IH]; intros st; [done|].
  simpl. rewrite read_line_prepend.
  destruct (read_line st l); simpl; auto.
Qed.

Lemma newline_join_cons x parts :
  newline_join (x :: parts) = x ++ mjoin ((λ c, LF :: c) <$> parts).
Proof.
  revert x. induction parts as [|y parts IH]; intros x.
  - simpl. by rewrite app_nil_r.
  - change (newline_join (x :: y :: parts))
      with (x ++ LF :: newline_join (y :: parts)).
    by rewrite IH.
Qed.

(** Lines that do not match extend the message of the entry in progress. *)
Lemma for_lines_conts conts e msg ch :
  Forall (λ c, Re.match_ pattern (sub_marks (strip c)) = None) conts →
  Message e = Some msg →
  for_lines {| current_message := Some e; chat := ch |} conts =
    Ok {| current_message :=
            Some (set_Message e
                    (Some (newline_join (msg :: continuation_texts conts))));
          chat := ch |}.
Proof.
  intros H. revert e msg. induction H as [|c conts Hc _ IH]; intros e msg Hmsg.
  - simpl. destruct e. simpl in *. by subst.
  - simpl. unfold continuation_texts. rewrite fmap_cons.
    destruct (decide (strip c = [])) as [E|Hne].
    + rewrite read_line_blank by done. simpl.
      rewrite E, filter_cons_False by naive_solver. by apply IH.
    + rewrite (read_line_cont _ _ e msg) by done. simpl.
      rewrite filter_cons_True by done.
      rewrite (IH _ (msg ++ LF :: strip c)) by done.
      do 3 f_equal. unfold set_Message. cbn [Date Time Person Message].
      do 2 f_equal. rewrite (newline_join_cons (msg ++ _)).
      rewrite (newline_join_cons (strip c)). unfold continuation_texts.
      by rewrite <- app_assoc.
Qed.

Lemma committed_prepend ch st : committed (prepend ch st) = ch ++ committed st.
Proof.
  unfold committed, prepend. simpl.
  destruct (current_message st); by rewrite ?app_assoc.
Qed.

Lemma for_lines_frame cur ch lines :
  for_lines {| current_message := cur; chat := ch |} lines =
  result_map (prepend ch)
    (for_lines {| current_message := cur; chat := [] |} lines).
Proof.
  rewrite <- for_lines_prepend. unfold prepend. simpl. by rewrite app_nil_r.
Qed.

(** C1: a header line [h] followed by the non-matching lines [conts], up to
    the next header line or the end of the file, gives exactly one entry,
    between the entries of the lines before and those of the lines after.
    Its message is the trimmed message of [h] and the trimmed continuation
    lines, joined by line feeds (blank lines are skipped).  With nothing
    after it the entry is the last one, stored once. *)
Theorem read_messages_multiline pre h conts rest d t p m :
  header_line d t p m (sub_marks (strip h)) →
  Forall (λ c, Re.match_ pattern (sub_marks (strip c)) = None) conts →
  (rest = [] ∨
   ∃ h' rest', rest = h' :: rest' ∧
     Re.match_ pattern (sub_marks (strip h')) ≠ None) →
  ∃ chat_pre chat_rest,
    read_messages pre = Ok chat_pre ∧
    read_messages rest = Ok chat_rest ∧
    read_messages (pre ++ h :: conts ++ rest) =
      Ok (chat_pre ++
          entry d t p (newline_join (strip m :: continuation_texts conts))
          :: chat_rest).
Proof.
  intros Hh Hconts Hrest.
  destruct (read_messages_committed pre) as (st1 & H1 & Hok1 & Hpre).
  set (e := entry d t p (newline_join (strip m :: continuation_texts conts))).
  assert (for_lines {| current_message := None; chat := [] |}
            (pre ++ h :: conts) =
          Ok {| current_message := Some e; chat := committed st1 |}) as Hmid.
  { rewrite for_lines_app, H1. simpl.
    rewrite (read_line_header _ _ _ _ _ _ Hh). simpl.
    by rewrite (for_lines_conts _ _ (strip m)). }
  exists (committed st1).
  destruct Hrest as [-> | (h' & rest' & -> & Hh')].
  - exists []. split_and!; [done..|].
    unfold read_messages. rewrite app_nil_r, Hmid. done.
  - destruct (Re.match_ pattern (sub_marks (strip h'))) as [marks|] eqn:E;
      [|done].
    apply pattern_sound in E as (d' & t' & p' & m' & Hd').
    set (e' := entry d' t' p' (strip m')).
    destruct (for_lines_ok rest' {| current_message := Some e'; chat := [] |})
      as (st2 & H2 & _).
    { split; simpl; [|constructor]. intros ? [= <-]. apply entry_ok. }
    exists (committed st2). split_and!; [done| |].
    + unfold read_messages. simpl.
      rewrite (read_line_header _ _ _ _ _ _ Hd'). simpl.
      fold e'. unfold committed at 1. simpl. by rewrite H2.
    + unfold read_messages.
      replace (pre ++ h :: conts ++ h' :: rest')
        with ((pre ++ h :: conts) ++ h' :: rest')
        by (by rewrite <- app_assoc).
      rewrite for_lines_app, Hmid. simpl.
      rewrite (read_line_header _ _ _ _ _ _ Hd'). simpl.
      rewrite for_lines_frame. fold e'. rewrite H2.
      change (Ok (committed
                    (prepend (committed {| current_message := Some e;
                                           chat := committed st1 |}) st2)) =
              Ok (committed st1 ++ e :: committed st2)).
      rewrite committed_prepend. unfold committed at 1. simpl.
      by rewrite <- app_assoc.
Qed.

(** ** Directionality marks *)

Lemma no_marks_sub_marks s : no_marks (sub_marks s).
Proof.
  apply Forall_forall. intros c Hc. unfold sub_marks in Hc.
  by apply list_elem_of_filter in Hc as [? _].
Qed.

Lemma sub_marks_id s : no_marks s → sub_marks s = s.
Proof.
  unfold no_marks, sub_marks. induction 1 as [|c s Hc _ IH]; [done|].
  rewrite filter_cons_True by done. by rewrite IH.
Qed.

Lemma sub_marks_idemp s : sub_marks (sub_marks s) = sub_marks s.
Proof. apply sub_marks_id, no_marks_sub_marks. Qed.

Lemma sub_marks_app s1 s2 : sub_marks (s1 ++ s2) = sub_marks s1 ++ sub_marks s2.
Proof. apply filter_app. Qed.

Lemma spaces_no_marks ws : spaces ws → no_marks ws.
Proof.
  unfold spaces. rewrite forallb_forall. intros H.
  apply Forall_forall. intros c Hc. apply list_elem_of_In, H in Hc.
  split; intros ->; by vm_compute in Hc.
Qed.

Lemma no_marks_header d t p m :
  no_marks (header d t p m) ↔
  no_marks d ∧ no_marks t ∧ no_marks p ∧ no_marks m.
Proof.
  change (header d t p m)
    with ([91] ++ d ++ [44; 32] ++ t ++ [93; 32] ++ p ++ [58; 32] ++ m).
  unfold no_marks. rewrite !Forall_app.
  assert (∀ s, forallb (λ c, negb (c =? LRM) && negb (c =? RLM)) s = true →
               Forall (λ c, c ≠ LRM ∧ c ≠ RLM) s) as Hfix.
  { intros s Hs. rewrite forallb_forall in Hs. apply Forall_forall.
    intros c Hc. apply list_elem_of_In, Hs, andb_prop in Hc as [H1 H2].
    apply negb_true_iff, N.eqb_neq in H1, H2. done. }
  pose proof (Hfix [91] eq_refl). pose proof (Hfix [44; 32] eq_refl).
  pose proof (Hfix [93; 32] eq_refl). pose proof (Hfix [58; 32] eq_refl).
  tauto.
Qed.

Lemma header_app d t p m r : header d t p (m ++ r) = header d t p m ++ r.
Proof. rewrite !header_eq. simpl. by repeat (rewrite <- app_assoc; simpl). Qed.

Lemma header_line_no_marks d t p m line :
  header_line d t p m (sub_marks line) →
  no_marks d ∧ no_marks t ∧ no_marks p ∧ no_marks m.
Proof.
  intros (_ & _ & _ & _ & H). apply no_marks_header.
  pose proof (no_marks_sub_marks line) as Hn.
  destruct H as [H | H]; rewrite H in Hn.
  - done.
  - by apply Forall_app in Hn as [? _].
Qed.

Lemma no_marks_strip s : no_marks s → no_marks (strip s).
Proof.
  unfold no_marks. rewrite !Forall_forall. intros H c Hc.
  by apply H, strip_elem.
Qed.

Lemma is_message_sub m m' :
  is_message m → m' ≠ [] → (∀ c, c ∈ m' → c ∈ m) → is_message m'.
Proof.
  unfold is_message. intros H Hne Hsub. bools.
  apply andb_True. split.
  - apply negb_True. by rewrite bool_decide_spec.
  - apply Is_true_true. rewrite forallb_forall in *.
    intros c Hc. apply H0. by apply list_elem_of_In, Hsub, list_elem_of_In.
Qed.

(** The parser does not see the marks. *)
Lemma split_chat_line_sub_marks line :
  split_chat_line (sub_marks line) = split_chat_line line.
Proof. unfold split_chat_line. by rewrite sub_marks_idemp. Qed.

(** C2: the parser never raises, and it returns either the four captured
    groups of the pattern (a date, a time, a sender and a message of the
    shape of a header line), the message trimmed, or a record whose four
    fields are all [None]; no record is filled in part. *)
Theorem split_chat_line_all_or_nothing line :
  (∃ marks d t p m,
     Re.match_ pattern (sub_marks line) = Some marks ∧
     Re.groups (sub_marks line) marks = [d; t; p; m] ∧
     header_line d t p m (sub_marks line) ∧
     split_chat_line line =
       Ok {| Date := Some d; Time := Some t; Person := Some p;
             Message := Some (strip m) |}) ∨
  (Re.match_ pattern (sub_marks line) = None ∧
   split_chat_line line =
     Ok {| Date := None; Time := None; Person := None; Message := None |}).
Proof.
  destruct (split_chat_line_cases line)
    as [(d & t & p & m & H & Hs) | [H Hs]]; [left|by right].
  exists (header_marks p m), d, t, p, m.
  split_and!;
    [by apply (pattern_complete d t) | by apply groups_header | done | done].
Qed.

(** C9: for a line that matches the header pattern with the field values
    [d], [t], [p], [m], parsing returns exactly these values, the message
    trimmed, and the line rebuilt from the returned fields is
    [[d, t] p: m] with the message trimmed.  Parsing the rebuilt line returns
    the same record again when the trimmed message is not empty. *)
Theorem split_chat_line_round_trip line d t p m :
  header_line d t p m (sub_marks line) →
  ∃ e, split_chat_line line = Ok e ∧
    Date e = Some d ∧ Time e = Some t ∧ Person e = Some p ∧
    Message e = Some (strip m) ∧
    reconstruct e = Some (header d t p (strip m)) ∧
    (strip m ≠ [] → split_chat_line (header d t p (strip m)) = Ok e).
Proof.
  intros H. exists (entry d t p (strip m)).
  split_and!; [by apply split_chat_line_header | done.. |].
  intros Hne.
  rewrite <- (strip_idemp m) at 2. apply split_chat_line_header.
  destruct (header_line_no_marks _ _ _ _ _ H) as (Hd & Ht & Hp & Hm).
  rewrite sub_marks_id
    by (apply no_marks_header; split_and!; try done; by apply no_marks_strip).
  destruct H as (? & ? & ? & ? & _).
  split_and!; [done.. | | by left].
  apply (is_message_sub m); [done | done | intros c; apply strip_elem].
Qed.

Lemma sub_marks_spaces ws : spaces ws → sub_marks ws = ws.
Proof. intros H. by apply sub_marks_id, spaces_no_marks. Qed.

Lemma strip_nonempty_rstrip m : strip m ≠ [] → rstrip m ≠ [].
Proof.
  intros H E. apply H.
  destruct (rstrip_decomp m) as (ws & Hws & Hm). rewrite E in Hm.
  simpl in Hm. subst m. unfold strip. by rewrite lstrip_all_spaces.
Qed.

Lemma rstrip_elem c s : c ∈ rstrip s → c ∈ s.
Proof.
  destruct (rstrip_decomp s) as (ws & _ & Hs). intros H.
  rewrite Hs. rewrite elem_of_app. auto.
Qed.

Lemma strip_rstrip m : strip (rstrip m) = strip m.
Proof.
  destruct (decide (strip m = [])) as [E|Hne].
  - rewrite E. destruct (strip_decomp m) as (l & r & Hl & Hr & Hm).
    rewrite E in Hm. simpl in Hm.
    assert (spaces m) as Hsp by (rewrite Hm; by apply spaces_app).
    by rewrite (rstrip_all_spaces m).
  - destruct (strip_decomp m) as (l & r & Hl & Hr & Hm).
    assert (rstrip m = l ++ strip m) as ->.
    { rewrite Hm at 1. rewrite app_assoc, rstrip_spaces by done.
      apply rstrip_fixed_app; [done | apply rstrip_strip]. }
    rewrite <- (app_nil_r (strip m)) at 1.
    rewrite strip_spaces by done. apply strip_idemp.
Qed.

(** Trimming a header line whose message is not blank. *)
Lemma strip_header d t p m nl :
  strip m ≠ [] → nl = [] ∨ nl = [LF] →
  strip (header d t p m ++ nl) = header d t p (rstrip m).
Proof.
  intros Hne Hnl. destruct (rstrip_decomp m) as (ws & Hws & Hm).
  apply (strip_unique _ [] _ (ws ++ nl)).
  - done.
  - apply spaces_app; [done|]. by destruct Hnl as [-> | ->].
  - by rewrite header_eq.
  - rewrite header_eq.
    replace (91 :: d ++ 44 :: 32 :: t ++ 93 :: 32 :: p ++ 58 :: 32 :: rstrip m)
      with ((91 :: d ++ 44 :: 32 :: t ++ 93 :: 32 :: p ++ [58; 32])
              ++ rstrip m)
      by (simpl; by repeat (rewrite <- app_assoc; simpl)).
    apply rstrip_fixed_app; [by apply strip_nonempty_rstrip|apply rstrip_idemp].
  - cbn [app]. rewrite app_assoc, <- (header_app d t p (rstrip m) ws).
    by rewrite <- Hm.
Qed.

(** A header line with marks is read like the same line without them, when
    its trimmed message is not empty. *)
Lemma read_line_sub_marks st l :
  sub_marks l = l ∨
  (∃ d t p m, header_line d t p m (sub_marks (strip l)) ∧ strip m ≠ []) →
  read_line st (sub_marks l) = read_line st l.
Proof.
  intros [-> | (d & t & p & m & H & Hne)]; [done|].
  rewrite (read_line_header _ l _ _ _ _ H).
  rewrite <- (strip_rstrip m).
  apply read_line_header.
  destruct (strip_decomp l) as (wl & wr & Hwl & Hwr & Hl).
  assert (strip (sub_marks l) = header d t p (rstrip m)) as ->.
  { rewrite Hl at 1. rewrite !sub_marks_app.
    rewrite (sub_marks_spaces wl), (sub_marks_spaces wr) by done.
    rewrite strip_spaces by done.
    destruct H as (_ & _ & _ & _ & [-> | ->]).
    - rewrite <- (app_nil_r (header d t p m)). apply strip_header; auto.
    - apply strip_header; auto. }
  destruct (header_line_no_marks _ _ _ _ _ H) as (Hd & Ht & Hp & Hm).
  rewrite sub_marks_id.
  - destruct H as (? & ? & ? & ? & _). split_and!; [done.. | | by left].
    apply (is_message_sub m);
      [done | by apply strip_nonempty_rstrip | intros c; apply rstrip_elem].
  - apply no_marks_header. split_and!; [done..|].
    unfold no_marks in *. rewrite Forall_forall in *.
    intros c Hc. by apply Hm, rstrip_elem.
Qed.

(** C5: the marks are invisible to the line parser.  For a whole file, the
    stored entries do not change when the marks are removed from it, as long
    as the marks stand in header lines whose trimmed message is not empty:
    the text of a continuation line is stored as it is read. *)
Theorem directionality_marks line lines :
  Forall (λ l, sub_marks l = l ∨
               ∃ d t p m, header_line d t p m (sub_marks (strip l)) ∧
                          strip m ≠ []) lines →
  split_chat_line (sub_marks line) = split_chat_line line ∧
  read_messages (sub_marks <$> lines) = read_messages lines.
Proof.
  intros H. split; [apply split_chat_line_sub_marks|].
  unfold read_messages. f_equal.
  generalize {| current_message := None; chat := [] |}.
  induction H as [|l lines Hl _ IH]; intros st; [done|].
  rewrite fmap_cons. simpl. rewrite (read_line_sub_marks _ _ Hl).
  destruct (read_line st l); simpl; auto.
Qed.

(** ** rename_person *)

Section rename.
Context (person new_name : str).

Lemma rename_at_cons x chat i :
  rename_at person new_name (x :: chat) (S i) =
  x :: rename_at person new_name chat i.
Proof.
  unfold rename_at. simpl. destruct (chat !! i) as [element|]; [|done].
  by destruct (decide (Person element = Some person)).
Qed.

Lemma foldl_rename_at_cons x chat k n :
  foldl (rename_at person new_name) (x :: chat) (seq (S k) n) =
  x :: foldl (rename_at person new_name) chat (seq k n).
Proof.
  revert chat k. induction n as [|n IH]; intros chat k; [done|].
  simpl. by rewrite rename_at_cons, IH.
Qed.

(** The loop renames entry by entry. *)
Lemma rename_person_fmap chat :
  rename_person chat person new_name = renamed person new_name <$> chat.
Proof.
  unfold rename_person. induction chat as [|e chat IH]; [done|].
  rewrite fmap_cons, <- IH. cbn [length seq foldl].
  replace (rename_at person new_name (e :: chat) 0)
    with (renamed person new_name e :: chat).
  - apply foldl_rename_at_cons.
  - unfold rename_at, renamed. simpl.
    by destruct (decide (Person e = Some person)).
Qed.

Lemma renamed_other e :
  Person e ≠ Some person → renamed person new_name e = e.
Proof. intros H. unfold renamed. by rewrite decide_False. Qed.

Lemma renamed_ok e : stored_ok e → stored_ok (renamed person new_name e).
Proof.
  unfold renamed. destruct (decide _); [|done].
  intros (? & ? & ? & ?). by repeat split.
Qed.

End rename.

(** C8: renaming rewrites the sender of the entries whose sender is
    [person], and nothing else: the number of entries is the same, and at
    every index the date, the time and the message are the ones that were
    there, and so is the sender unless it was [person]. *)
Theorem rename_person_frame chat person new_name :
  get_chat_len (rename_person chat person new_name) = get_chat_len chat ∧
  ∀ i e, chat !! i = Some e →
    ∃ e', rename_person chat person new_name !! i = Some e' ∧
      Date e' = Date e ∧ Time e' = Time e ∧ Message e' = Message e ∧
      Person e' =
        (if decide (Person e = Some person) then Some new_name else Person e).
Proof.
  rewrite rename_person_fmap. split.
  - unfold get_chat_len. by rewrite length_fmap.
  - intros i e Hi. exists (renamed person new_name e).
    rewrite list_lookup_fmap, Hi. split; [done|].
    unfold renamed. by destruct (decide (Person e = Some person)).
Qed.

(** ** remove_person and get_persons *)

Lemma elem_of_get_persons p chat :
  p ∈ get_persons chat ↔ p ≠ [] ∧ ∃ e, e ∈ chat ∧ Person e = Some p.
Proof.
  unfold get_persons. rewrite elem_of_list_to_set, list_elem_of_omap.
  split.
  - intros (e & He & Hp). apply list_elem_of_filter in He as [Ht He].
    split; [|by exists e]. rewrite Hp in Ht. by destruct p.
  - intros (Hne & e & He & Hp). exists e. split; [|done].
    apply list_elem_of_filter. split; [|done]. rewrite Hp. by destruct p.
Qed.

Lemma length_filter_split {A} (P : A → Prop) `{!∀ x, Decision (P x)}
    (l : list A) :
  length l = (length (filter (λ x, ¬ P x) l) + length (filter P l))%nat.
Proof.
  induction l as [|x l IH]; [done|]. simpl.
  destruct (decide (P x)).
  - rewrite (filter_cons_True P), (filter_cons_False (λ x, ¬ P x)) by auto.
    simpl. lia.
  - rewrite (filter_cons_False P), (filter_cons_True (λ x, ¬ P x)) by auto.
    simpl. lia.
Qed.

Lemma filter_all {A} (P : A → Prop) `{!∀ x, Decision (P x)} (l : list A) :
  (∀ x, x ∈ l → P x) → filter P l = l.
Proof.
  induction l as [|x l IH]; [done|]. intros Hall.
  rewrite filter_cons_True by (apply Hall; left).
  rewrite IH; [done|]. intros y Hy. apply Hall. by right.
Qed.

(** C7: removing [name] keeps, in their order, exactly the entries whose
    sender is not [name]; the number of entries goes down by the number of
    entries whose sender is [name]; [name] is not among the senders
    afterwards; and when no entry has the sender [name] the list is the same,
    so that a second removal changes nothing. *)
Theorem remove_person_exact chat name :
  (∀ e, e ∈ remove_person chat name ↔ e ∈ chat ∧ Person e ≠ Some name) ∧
  (remove_person chat name `sublist_of` chat) ∧
  get_chat_len chat =
    (get_chat_len (remove_person chat name) +
     length (filter (λ e, Person e = Some name) chat))%nat ∧
  (name ∉ get_persons (remove_person chat name)) ∧
  ((∀ e, e ∈ chat → Person e ≠ Some name) → remove_person chat name = chat) ∧
  remove_person (remove_person chat name) name = remove_person chat name.
Proof.
  unfold remove_person. split_and!.
  - intros e. rewrite list_elem_of_filter. tauto.
  - apply sublist_filter.
  - apply (length_filter_split (λ e, Person e = Some name)).
  - rewrite elem_of_get_persons. intros (_ & e & He & Hp).
    by apply list_elem_of_filter in He as [Hne _].
  - apply filter_all.
  - apply filter_all. intros e He. by apply list_elem_of_filter in He as [? _].
Qed.

(** ** get_filtered_chat *)

Lemma any_in_Some s filters :
  any_in (Some s) filters = Ok (existsb (str_contains s) filters).
Proof.
  induction filters as [|f filters IH]; [done|]. simpl.
  by destruct (str_contains s f).
Qed.

Lemma any_in_None filters : filters ≠ [] → any_in None filters = Raise TypeError.
Proof. by destruct filters. Qed.

(** On a list whose selected field is populated everywhere, the
    comprehension is a plain filter. *)
Lemma comprehension_filter (sel : ChatEntry → option str) filters chat :
  Forall (λ e, is_Some (sel e)) chat →
  comprehension (λ entry, any_in (sel entry) filters) chat =
  Ok (filter (λ e, contains_any (sel e) filters) chat).
Proof.
  induction 1 as [|e chat [s Hs] _ IH]; [done|].
  simpl. rewrite Hs, any_in_Some, IH. simpl.
  destruct (existsb (str_contains s) filters) eqn:E.
  - rewrite filter_cons_True; [done|]. unfold contains_any. by rewrite Hs, E.
  - rewrite filter_cons_False; [done|]. unfold contains_any. rewrite Hs, E.
    by intros [].
Qed.

(** With every field populated the filter does not raise. *)
Lemma get_filtered_chat_stored_ok chat filters by_ :
  Forall stored_ok chat →
  get_filtered_chat chat filters by_ =
  Ok (filter (λ e, contains_any (field by_ e) filters) chat).
Proof.
  intros H.
  destruct by_; apply comprehension_filter;
    (eapply Forall_impl; [exact H|]); by intros e (? & ? & ? & ?).
Qed.

Lemma get_filtered_chat_field chat filters by_ :
  get_filtered_chat chat filters by_ =
  comprehension (λ entry, any_in (field by_ entry) filters) chat.
Proof. by destruct by_. Qed.

Lemma startswith_refl s : startswith s s = true.
Proof. induction s as [|c s IH]; [done|]. simpl. by rewrite N.eqb_refl. Qed.

Lemma str_contains_refl s : str_contains s s = true.
Proof. destruct s; simpl; [done|]. by rewrite N.eqb_refl, startswith_refl. Qed.

(** C10: with the empty list of filters no entry is kept, whatever the
    selected field and whatever the entries hold. *)
Theorem get_filtered_chat_no_filters chat by_ :
  get_filtered_chat chat [] by_ = Ok [].
Proof.
  rewrite get_filtered_chat_field.
  induction chat as [|e chat IH]; [done|]. cbn [comprehension]. by rewrite IH.
Qed.

(** C3: the filter on a list that holds an entry whose selected field is
    [None] raises [TypeError] as soon as there is a filter string. *)
Theorem get_filtered_chat_absent_field chat filters by_ :
  filters ≠ [] →
  Exists (λ e, field by_ e = None) chat →
  get_filtered_chat chat filters by_ = Raise TypeError.
Proof.
  intros Hf H. rewrite get_filtered_chat_field.
  induction H as [e chat He | e chat _ IH]; cbn [comprehension].
  - by rewrite He, any_in_None.
  - destruct (field by_ e) as [s|].
    + rewrite any_in_Some, IH. done.
    + by rewrite any_in_None.
Qed.

Lemma filter_fmap_renamed (P Q : ChatEntry → Prop)
    `{!∀ e, Decision (P e), !∀ e, Decision (Q e)} (f : ChatEntry → ChatEntry)
    (chat : list ChatEntry) :
  (∀ e, P (f e) ↔ Q e) → filter P (f <$> chat) = f <$> filter Q chat.
Proof.
  intros Hiff. induction chat as [|e chat IH]; [done|]. rewrite fmap_cons.
  destruct (decide (Q e)) as [Hq|Hq].
  - rewrite (filter_cons_True P), (filter_cons_True Q) by (first [done | by apply Hiff]).
    by rewrite fmap_cons, IH.
  - rewrite (filter_cons_False P), (filter_cons_False Q)
      by (first [done | by rewrite Hiff]).
    done.
Qed.

Lemma person_contains_renamed old new e :
  contains_any (Person (renamed old new e)) [new] ↔
  Person e = Some old ∨ person_contains new e.
Proof.
  unfold renamed, person_contains, contains_any.
  destruct (decide (Person e = Some old)) as [Ho|Ho]; simpl.
  - rewrite str_contains_refl. simpl. tauto.
  - destruct (Person e) as [q|]; [|tauto].
    rewrite orb_false_r. tauto.
Qed.

(** C4: after renaming [old] to [new], the filter on [new] returns, in the
    order of the store, the entries whose sender was [old] or contained
    [new], as the renaming left them.  These are exactly the entries whose
    sender was [old] when the sender of no other entry contains [new].
    Renaming a name that no entry has leaves the store as it was. *)
Theorem rename_then_filter chat old new :
  Forall (λ e, is_Some (Person e)) chat →
  get_filtered_chat (rename_person chat old new) [new] By.Person =
    Ok (rename_person
          (filter (λ e, Person e = Some old ∨ person_contains new e) chat)
          old new) ∧
  ((∀ e, e ∈ chat → Person e ≠ Some old → ¬ person_contains new e) →
   rename_then_filter_as_stated chat old new) ∧
  ((∀ e, e ∈ chat → Person e ≠ Some old) → rename_person chat old new = chat).
Proof.
  intros Hp.
  assert (get_filtered_chat (rename_person chat old new) [new] By.Person =
    Ok (rename_person
          (filter (λ e, Person e = Some old ∨ person_contains new e) chat)
          old new)) as Hmain.
  { rewrite !rename_person_fmap. unfold get_filtered_chat.
    rewrite (comprehension_filter Person).
    - f_equal. apply filter_fmap_renamed. apply person_contains_renamed.
    - apply Forall_fmap. eapply Forall_impl; [done|]. simpl.
      intros e He. unfold renamed. by destruct (decide _). }
  split_and!; [done | |].
  - intros Hfresh. unfold rename_then_filter_as_stated. rewrite Hmain.
    do 2 f_equal. clear Hmain Hp.
    induction chat as [|e chat IH]; [done|].
    assert (filter (λ e, Person e = Some old ∨ person_contains new e) chat =
            filter (λ e, Person e = Some old) chat) as IH'.
    { apply IH. intros e' He'. apply Hfresh. by right. }
    destruct (decide (Person e = Some old)) as [Ho|Ho].
    + rewrite !filter_cons_True by auto. by rewrite IH'.
    + rewrite !filter_cons_False; [done | done |].
      intros [?|Hc]; [done|]. apply (Hfresh e); [left|done|done].
  - intros Hno. rewrite rename_person_fmap.
    rewrite <- (list_fmap_id chat) at 2. apply list_fmap_ext.
    intros i e Hi. apply renamed_other, Hno.
    by apply list_elem_of_lookup_2 in Hi.
Qed.

(** ** The stored entries *)

(** C6: in every store that construction, removals and renamings can reach,
    every entry has its four fields populated. *)
Theorem reachable_stored_ok chat : reachable chat → Forall stored_ok chat.
Proof.
  induction 1 as [lines chat H | chat person _ IH | chat person new_name _ IH].
  - destruct (read_messages_committed lines) as (st & _ & Hok & Hc).
    rewrite Hc in H. injection H as <-. by apply committed_ok.
  - unfold remove_person. rewrite Forall_forall in *. intros e He.
    apply list_elem_of_filter in He as [_ He]. auto.
  - rewrite rename_person_fmap. apply Forall_fmap.
    eapply Forall_impl; [done|]. intros e. apply renamed_ok.
Qed.

(** ** The small chat *)

Example init_chat_text : init chat_text = Ok chat_example.
Proof. vm_compute. reflexivity. Qed.

Lemma header_line_hello :
  header_line (lit "01.01.23") (lit "10:00:00") (lit "Alice") (lit "Hello")
    (sub_marks (strip (line_hello ++ [LF]))).
Proof.
  unfold header_line. split_and!; try (vm_compute; exact I).
  left. vm_compute. reflexivity.
Defined.

Lemma read_messages_multiline_witness :
  ∃ chat_pre chat_rest,
    read_messages [] = Ok chat_pre ∧
    read_messages [line_hi] = Ok chat_rest ∧
    read_messages ([] ++ (line_hello ++ [LF]) :: [line_there ++ [LF]; [LF]]
                      ++ [line_hi]) =
      Ok (chat_pre ++
          entry (lit "01.01.23") (lit "10:00:00") (lit "Alice")
            (newline_join
               (strip (lit "Hello")
                :: continuation_texts [line_there ++ [LF]; [LF]]))
          :: chat_rest).
Proof.
  apply (read_messages_multiline [] (line_hello ++ [LF])
           [line_there ++ [LF]; [LF]] [line_hi]).
  - exact header_line_hello.
  - repeat constructor; vm_compute; reflexivity.
  - right. exists line_hi, []. split; [reflexivity|].
    vm_compute. intros H. discriminate H.
Defined.

Lemma split_chat_line_round_trip_witness :
  header_line (lit "01.01.23") (lit "10:00:00") (lit "Alice") (lit "Hello  ")
    (sub_marks marked_hello) ∧
  ∃ e, split_chat_line marked_hello = Ok e ∧
    Date e = Some (lit "01.01.23") ∧ Time e = Some (lit "10:00:00") ∧
    Person e = Some (lit "Alice") ∧
    Message e = Some (strip (lit "Hello  ")) ∧
    reconstruct e =
      Some (header (lit "01.01.23") (lit "10:00:00") (lit "Alice")
              (strip (lit "Hello  "))) ∧
    (strip (lit "Hello  ") ≠ [] →
     split_chat_line
       (header (lit "01.01.23") (lit "10:00:00") (lit "Alice")
          (strip (lit "Hello  "))) = Ok e).
Proof.
  assert (header_line (lit "01.01.23") (lit "10:00:00") (lit "Alice")
            (lit "Hello  ") (sub_marks marked_hello)) as H.
  { unfold header_line. split_and!; try (vm_compute; exact I).
    left. vm_compute. reflexivity. }
  split; [exact H|]. exact (split_chat_line_round_trip _ _ _ _ _ H).
Defined.

(** A message of white space only is stored as the empty string, and the
    line rebuilt from such a record is not a header line. *)
Example round_trip_blank_message :
  split_chat_line (lit "[01.01.23, 10:00:00] Alice:   ") =
    Ok (entry (lit "01.01.23") (lit "10:00:00") (lit "Alice") []) ∧
  split_chat_line
    (header (lit "01.01.23") (lit "10:00:00") (lit "Alice") []) = Ok no_match.
Proof. split; vm_compute; reflexivity. Qed.

Lemma directionality_marks_witness :
  split_chat_line (sub_marks marked_hello) = split_chat_line marked_hello ∧
  read_messages (sub_marks <$> [marked_hello ++ [LF]; line_there ++ [LF]]) =
  read_messages [marked_hello ++ [LF]; line_there ++ [LF]].
Proof.
  apply directionality_marks.
  constructor; [|constructor; [|constructor]].
  - right.
    exists (lit "01.01.23"), (lit "10:00:00"), (lit "Alice"), (lit "Hello").
    split.
    + unfold header_line. split_and!; try (vm_compute; exact I).
      left. vm_compute. reflexivity.
    + vm_compute. intros H. discriminate H.
  - left. vm_compute. reflexivity.
Defined.

(** The mark in front of a continuation line is stored with the message: the
    two files do not give the same entries. *)
Lemma directionality_marks_counterexample :
  init marked_text ≠ init (sub_marks marked_text).
Proof. vm_compute. intros H. discriminate H. Qed.

(** The marks count for the trimming of a line, which comes before their
    removal: a message that is blank up to a mark is stored as the empty
    string, and a line with a mark in front of leading white space is no
    header line. *)
Example marks_and_trimming :
  read_messages [marked_blank] =
    Ok [entry (lit "01.01.23") (lit "10:00:00") (lit "Alice") []] ∧
  read_messages [sub_marks marked_blank] = Ok [] ∧
  read_messages [marked_indent] = Ok [] ∧
  read_messages [sub_marks marked_indent] =
    Ok [entry (lit "01.01.23") (lit "10:00:00") (lit "Alice") (lit "Hello")].
Proof. split_and!; vm_compute; reflexivity. Qed.

Lemma get_filtered_chat_absent_field_witness :
  get_filtered_chat (chat_example ++ [no_match]) [lit "a"] By.Person =
  Raise TypeError.
Proof.
  apply get_filtered_chat_absent_field.
  - intros H. discriminate H.
  - apply Exists_app. right. constructor. reflexivity.
Defined.

Lemma rename_then_filter_witness :
  Forall (λ e, is_Some (Person e)) chat_example ∧
  get_filtered_chat (rename_person chat_example (lit "Alice") (lit "Al"))
    [lit "Al"] By.Person =
    Ok (rename_person
          (filter (λ e, Person e = Some (lit "Alice")
                        ∨ person_contains (lit "Al") e) chat_example)
          (lit "Alice") (lit "Al")) ∧
  rename_then_filter_as_stated chat_example (lit "Alice") (lit "Al").
Proof.
  assert (Forall (λ e, is_Some (Person e)) chat_example) as H
    by (repeat constructor; eexists; reflexivity).
  destruct (rename_then_filter chat_example (lit "Alice") (lit "Al") H)
    as (H1 & H2 & _).
  split_and!; [exact H | exact H1 |].
  apply H2. intros e He Hne.
  apply list_elem_of_In in He. simpl in He.
  destruct He as [<- | [<- | []]].
  - exfalso. apply Hne. reflexivity.
  - vm_compute. intros [].
Defined.

(** Bob's entry is returned by the filter on the new name although its
    sender was never Alice. *)
Lemma rename_then_filter_counterexample :
  init chat_text = Ok chat_example ∧
  ¬ rename_then_filter_as_stated chat_example (lit "Alice") (lit "Bob").
Proof.
  split; [vm_compute; reflexivity|].
  unfold rename_then_filter_as_stated. vm_compute. intros H. discriminate H.
Qed.

Lemma reachable_stored_ok_witness :
  reachable
    (rename_person (remove_person chat_example (lit "Bob"))
       (lit "Alice") (lit "Al")) ∧
  Forall stored_ok
    (rename_person (remove_person chat_example (lit "Bob"))
       (lit "Alice") (lit "Al")).
Proof.
  assert (reachable
            (rename_person (remove_person chat_example (lit "Bob"))
               (lit "Alice") (lit "Al"))) as H.
  { apply reach_rename, reach_remove.
    apply (reach_init (file_lines chat_text)). vm_compute. reflexivity. }
  split; [exact H|]. exact (reachable_stored_ok _ H).
Defined.

Lemma remove_person_exact_witness :
  get_chat_len chat_example =
    (get_chat_len (remove_person chat_example (lit "Bob")) + 1)%nat ∧
  (lit "Bob" ∉ get_persons (remove_person chat_example (lit "Bob"))) ∧
  remove_person chat_example (lit "Carol") = chat_example.
Proof.
  destruct (remove_person_exact chat_example (lit "Bob"))
    as (_ & _ & Hlen & Hnot & _ & _).
  destruct (remove_person_exact chat_example (lit "Carol"))
    as (_ & _ & _ & _ & Hnoop & _).
  split_and!; [exact Hlen | exact Hnot |].
  apply Hnoop. intros e He.
  apply list_elem_of_In in He. simpl in He.
  destruct He as [<- | [<- | []]]; vm_compute; intros H; discriminate H.
Defined.

Lemma rename_person_frame_witness :
  ∃ e', rename_person chat_example (lit "Bob") (lit "Robert") !! 1%nat
          = Some e' ∧
    Date e' = Date bob_hi ∧ Time e' = Time bob_hi ∧
    Message e' = Message bob_hi ∧
    Person e' =
      (if decide (Person bob_hi = Some (lit "Bob"))
       then Some (lit "Robert") else Person bob_hi).
Proof.
  destruct (rename_person_frame chat_example (lit "Bob") (lit "Robert"))
    as [_ H].
  apply (H 1%nat bob_hi). reflexivity.
Defined.

(** * More of the reading loop *)

Lemma is_header_true l d t p m :
  header_line d t p m (sub_marks (strip l)) → is_header l = true.
Proof.
  intros H. unfold is_header. by rewrite (pattern_complete _ _ _ _ _ H).
Qed.

Lemma is_header_false l :
  Re.match_ pattern (sub_marks (strip l)) = None ↔ is_header l = false.
Proof. unfold is_header. by destruct (Re.match_ _ _). Qed.

Lemma is_header_inv l :
  is_header l = true → ∃ d t p m, header_line d t p m (sub_marks (strip l)).
Proof.
  unfold is_header.
  destruct (Re.match_ pattern (sub_marks (strip l))) eqn:E; [|done].
  intros _. by apply pattern_sound in E.
Qed.

(** A line that is no header line adds no entry. *)
Lemma read_line_no_header st l :
  reader_ok st → is_header l = false →
  ∃ st', read_line st l = Ok st' ∧ reader_ok st' ∧
    length (committed st') = length (committed st).
Proof.
  intros Hok Hh. apply is_header_false in Hh.
  destruct (decide (strip l = [])) as [E|Hne].
  { exists st. by rewrite read_line_blank. }
  destruct (current_message st) as [e|] eqn:Hcur.
  - destruct Hok as [Hc Hch]. destruct (Hc e Hcur) as (? & ? & ? & [msg Hmsg]).
    eexists. rewrite (read_line_cont _ _ _ _ Hne Hh Hcur Hmsg).
    split; [done|]. split.
    { split; simpl; [|done]. intros ? [= <-]. by repeat split. }
    unfold committed. simpl. by rewrite Hcur, !length_app.
  - exists st. by rewrite read_line_orphan.
Qed.

Lemma for_lines_count lines st :
  reader_ok st →
  ∃ st', for_lines st lines = Ok st' ∧ reader_ok st' ∧
    length (committed st') = (length (committed st) + header_count lines)%nat.
Proof.
  revert st. induction lines as [|l lines IH]; intros st Hok.
  { exists st. split_and!; [done..|]. unfold header_count. simpl. lia. }
  unfold header_count. simpl.
  destruct (is_header l) eqn:Hh.
  - rewrite filter_cons_True by by rewrite Hh.
    apply is_header_inv in Hh as (d & t & p & m & H).
    rewrite (read_line_header _ _ _ _ _ _ H). simpl.
    destruct (IH {| current_message := Some (entry d t p (strip m));
                    chat := committed st |}) as (st' & -> & Hok' & Hlen).
    { split; simpl; [|by apply committed_ok]. intros ? [= <-]. apply entry_ok. }
    exists st'. split_and!; [done..|]. rewrite Hlen.
    unfold committed at 1. simpl. rewrite length_app. simpl.
    fold (header_count lines). lia.
  - rewrite filter_cons_False by (rewrite Hh; by intros []).
    destruct (read_line_no_header st l Hok Hh) as (st1 & -> & Hok1 & Hc).
    simpl. destruct (IH st1 Hok1) as (st' & -> & Hok' & Hlen).
    exists st'. split_and!; [done..|]. rewrite Hlen, Hc.
    by fold (header_count lines).
Qed.

(** X1: the constructor stores one entry per header line of the file. *)
Theorem read_messages_count lines :
  ∃ chat, read_messages lines = Ok chat ∧
    get_chat_len chat = header_count lines.
Proof.
  destruct (for_lines_count lines _ init_reader_ok) as (st & H & _ & Hlen).
  exists (committed st). unfold read_messages. rewrite H. split; [done|].
  unfold get_chat_len. by rewrite Hlen.
Qed.

Lemma for_lines_ext (f : str → str) lines st :
  (∀ st l, read_line st (f l) = read_line st l) →
  for_lines st (f <$> lines) = for_lines st lines.
Proof.
  intros Hf. revert st. induction lines as [|l lines IH]; intros st; [done|].
  rewrite fmap_cons. simpl. rewrite Hf. destruct (read_line st l); simpl; auto.
Qed.

(** X2: the white space around a line does not count: the file whose lines
    are trimmed gives the same entries. *)
Theorem read_messages_strip lines :
  read_messages (strip <$> lines) = read_messages lines.
Proof.
  unfold read_messages. rewrite (for_lines_ext strip); [done|].
  intros st l. unfold read_line. by rewrite strip_idemp.
Qed.

(** X3: blank lines do not count, wherever they stand. *)
Theorem read_messages_blank_lines lines :
  read_messages (filter (λ l, strip l ≠ []) lines) = read_messages lines.
Proof.
  unfold read_messages. f_equal.
  generalize {| current_message := None; chat := [] |}.
  induction lines as [|l lines IH]; intros st; [done|].
  destruct (decide (strip l = [])) as [E|Hne].
  - rewrite filter_cons_False by (by intros ?). simpl.
    rewrite read_line_blank by done. simpl. apply IH.
  - rewrite filter_cons_True by done. simpl.
    destruct (read_line st l); simpl; auto.
Qed.

Lemma for_lines_junk junk :
  Forall (λ l, is_header l = false) junk →
  for_lines {| current_message := None; chat := [] |} junk =
  Ok {| current_message := None; chat := [] |}.
Proof.
  induction 1 as [|l junk Hl _ IH]; [done|]. simpl.
  rewrite read_line_orphan; [done | by apply is_header_false | done].
Qed.

(** X4: the lines in front of the first header line are dropped. *)
Theorem read_messages_leading_lines junk lines :
  Forall (λ l, is_header l = false) junk →
  read_messages (junk ++ lines) = read_messages lines.
Proof.
  intros H. unfold read_messages.
  by rewrite for_lines_app, for_lines_junk.
Qed.

Lemma read_messages_leading_lines_witness :
  read_messages (junk_lines ++ chat_lines) = read_messages chat_lines.
Proof.
  apply read_messages_leading_lines.
  repeat constructor; vm_compute; reflexivity.
Defined.

(** X5: reading is compositional at a header line: the entries of two
    texts, the second of which starts with a header line, are the entries of
    the first followed by those of the second. *)
Theorem read_messages_app lines1 h lines2 :
  is_header h = true →
  ∃ chat1 chat2,
    read_messages lines1 = Ok chat1 ∧
    read_messages (h :: lines2) = Ok chat2 ∧
    read_messages (lines1 ++ h :: lines2) = Ok (chat1 ++ chat2).
Proof.
  intros Hh. apply is_header_inv in Hh as (d & t & p & m & H).
  destruct (read_messages_committed lines1) as (st1 & H1 & Hok1 & Hc1).
  set (e := entry d t p (strip m)).
  destruct (for_lines_ok lines2 {| current_message := Some e; chat := [] |})
    as (st2 & H2 & _).
  { split; simpl; [|constructor]. intros ? [= <-]. apply entry_ok. }
  exists (committed st1), (committed st2). split_and!; [done| |].
  - unfold read_messages. simpl.
    rewrite (read_line_header _ _ _ _ _ _ H). simpl.
    fold e. unfold committed at 1. simpl. by rewrite H2.
  - unfold read_messages. rewrite for_lines_app, H1. simpl.
    rewrite (read_line_header _ _ _ _ _ _ H). simpl. fold e.
    rewrite for_lines_frame, H2.
    change (Ok (committed (prepend (committed st1) st2)) =
            Ok (committed st1 ++ committed st2)).
    by rewrite committed_prepend.
Qed.

Lemma read_messages_app_witness :
  ∃ chat1 chat2,
    read_messages [line_hello ++ [LF]; line_there ++ [LF]] = Ok chat1 ∧
    read_messages [line_hi] = Ok chat2 ∧
    read_messages ([line_hello ++ [LF]; line_there ++ [LF]] ++ [line_hi]) =
      Ok (chat1 ++ chat2).
Proof.
  apply (read_messages_app [line_hello ++ [LF]; line_there ++ [LF]] line_hi []).
  vm_compute. reflexivity.
Defined.


(** ** Invariants of the reading loop *)

Section invariant.
Context (P : ChatEntry → Prop) (Q : str → Prop).
Hypothesis P_header : ∀ d t p m l,
  Q l → header_line d t p m (sub_marks (strip l)) → P (entry d t p (strip m)).
Hypothesis P_cont : ∀ e msg l,
  P e → Message e = Some msg → strip l ≠ [] →
  P (set_Message e (Some (msg ++ LF :: strip l))).

Lemma committed_inv st : reader_inv P st → Forall P (committed st).
Proof.
  intros [Hc Hch]. unfold committed.
  destruct (current_message st) as [m|]; [|done].
  apply Forall_app. split; [done|]. apply Forall_singleton. by apply Hc.
Qed.

Lemma read_line_inv st l :
  reader_ok st → reader_inv P st → Q l →
  ∃ st', read_line st l = Ok st' ∧ reader_ok st' ∧ reader_inv P st'.
Proof.
  intros Hok Hinv Hq.
  destruct (read_line_ok st l Hok) as (st' & Hst' & Hok').
  exists st'. split_and!; [done..|].
  destruct (decide (strip l = [])) as [E|Hne].
  { rewrite read_line_blank in Hst' by done. by injection Hst' as <-. }
  destruct (split_chat_line_cases (strip l))
    as [(d & t & p & m & H & _) | [H _]].
  - rewrite (read_line_header _ _ _ _ _ _ H) in Hst'. injection Hst' as <-.
    split; simpl; [|by apply committed_inv].
    intros ? [= <-]. by apply (P_header d t p m l).
  - destruct (current_message st) as [e|] eqn:Hcur.
    + destruct Hok as [Hc _]. destruct (Hc e Hcur) as (? & ? & ? & [msg Hmsg]).
      rewrite (read_line_cont _ _ _ _ Hne H Hcur Hmsg) in Hst'.
      injection Hst' as <-. destruct Hinv as [Hi Hich].
      split; simpl; [|done]. intros ? [= <-]. apply P_cont; auto.
    + rewrite read_line_orphan in Hst' by done. by injection Hst' as <-.
Qed.

Lemma for_lines_inv lines st :
  reader_ok st → reader_inv P st → Forall Q lines →
  ∃ st', for_lines st lines = Ok st' ∧ reader_ok st' ∧ reader_inv P st'.
Proof.
  intros Hok Hinv Hq. revert st Hok Hinv.
  induction Hq as [|l lines Hl _ IH]; intros st Hok Hinv; [by exists st|].
  simpl. destruct (read_line_inv st l Hok Hinv Hl) as (st1 & -> & Hok1 & Hinv1).
  simpl. auto.
Qed.

Lemma read_messages_inv lines :
  Forall Q lines → ∃ chat, read_messages lines = Ok chat ∧ Forall P chat.
Proof.
  intros Hq.
  destruct (for_lines_inv lines {| current_message := None; chat := [] |})
    as (st & H & _ & Hinv); [apply init_reader_ok | | done |].
  { split; [done|]. simpl. constructor. }
  exists (committed st). unfold read_messages. rewrite H.
  split; [done|]. by apply committed_inv.
Qed.

End invariant.

Lemma parsed_header d t p m (l : str) :
  header_line d t p m (sub_marks (strip l)) → parsed (entry d t p (strip m)).
Proof.
  intros H. destruct (header_line_no_marks _ _ _ _ _ H) as (? & ? & ? & _).
  destruct H as (? & ? & ? & _).
  split_and!; [by exists d | by exists t | by exists p | by eexists].
Qed.

Lemma parsed_cont e msg :
  parsed e → parsed (set_Message e (Some msg)).
Proof. intros (Hd & Ht & Hp & _). split_and!; [done..|by eexists]. Qed.


(** X7: after construction the senders that [get_persons] reports are all
    the senders of the entries, and each of them is a name that is not empty
    and holds neither a colon nor a directionality mark. *)
Theorem get_persons_constructed lines :
  ∃ chat, read_messages lines = Ok chat ∧
    (∀ p, p ∈ get_persons chat ↔ ∃ e, e ∈ chat ∧ Person e = Some p) ∧
    (∀ p, p ∈ get_persons chat → is_person p ∧ no_marks p).
Proof.
  destruct (read_messages_inv parsed (λ _, True)) with lines
    as (chat & Hc & Hall).
  - intros d t p m l _. apply parsed_header.
  - intros e msg l He _ _. by apply parsed_cont.
  - by apply Forall_forall.
  - exists chat. split; [done|]. rewrite Forall_forall in Hall.
    assert (∀ e p, e ∈ chat → Person e = Some p → is_person p ∧ no_marks p)
      as Hp.
    { intros e p He Hpe. destruct (Hall e He) as (_ & _ & (p' & Hp' & ? & ?) & _).
      rewrite Hpe in Hp'. by injection Hp' as <-. }
    split; intros p; rewrite elem_of_get_persons.
    + split; [by intros [_ ?]|]. intros (e & He & Hpe). split; [|by exists e].
      destruct (Hp e p He Hpe) as [Hip _].
      apply is_person_inv in Hip as [? _]. done.
    + intros (_ & e & He & Hpe). by apply (Hp e).
Qed.

Lemma length_rstrip s : (length (rstrip s) ≤ length s)%nat.
Proof.
  destruct (rstrip_decomp s) as (ws & _ & H).
  apply (f_equal length) in H. rewrite length_app in H. lia.
Qed.

(** The message of a trimmed header line is not blank. *)
Lemma header_line_trimmed d t p m s :
  header_line d t p m s → rstrip s = s → strip m ≠ [].
Proof.
  intros (_ & _ & _ & Hm & Hs) Hfix.
  apply is_message_inv in Hm as [Hne _].
  destruct Hs as [-> | ->].
  - intros E. destruct (strip_decomp m) as (l & r & Hl & Hr & Hdec).
    rewrite E in Hdec. simpl in Hdec.
    assert (spaces m) as Hsp by (rewrite Hdec; by apply spaces_app).
    change m with ([] ++ m) in Hfix at 1 2.
    rewrite header_app, rstrip_spaces in Hfix by done.
    pose proof (length_rstrip (header d t p [])) as Hlen.
    rewrite Hfix, length_app in Hlen. destruct m; [done|]. simpl in Hlen. lia.
  - rewrite rstrip_spaces in Hfix by done.
    pose proof (length_rstrip (header d t p m)) as Hlen.
    rewrite Hfix, length_app in Hlen. simpl in Hlen. lia.
Qed.

Lemma length_get_messages chat :
  Forall (λ e, truthy (Message e)) chat →
  length (get_messages chat) = length chat.
Proof.
  unfold get_messages. induction 1 as [|e chat He _ IH]; [done|].
  rewrite filter_cons_True by done.
  destruct (Message e) as [msg|] eqn:E; [|done].
  cbn [omap list_omap]. rewrite E. cbn [length]. by rewrite IH.
Qed.

(** X8: in a file without directionality marks every entry has a message
    that is not empty, so that [get_messages] returns one message for each
    entry. *)
Theorem read_messages_no_marks lines :
  Forall no_marks lines →
  ∃ chat, read_messages lines = Ok chat ∧
    Forall (λ e, truthy (Message e)) chat ∧
    length (get_messages chat) = get_chat_len chat.
Proof.
  intros H.
  destruct (read_messages_inv (λ e, truthy (Message e)) no_marks) with lines
    as (chat & Hc & Hall); [| |done|].
  - intros d t p m l Hl Hh. simpl.
    rewrite sub_marks_id in Hh by by apply no_marks_strip.
    apply header_line_trimmed in Hh; [|apply rstrip_strip].
    by destruct (strip m).
  - intros e msg l _ _ _. simpl. by destruct msg.
  - exists chat. split_and!; [done..|]. by apply length_get_messages.
Qed.

Lemma read_messages_no_marks_witness :
  ∃ chat, read_messages chat_lines = Ok chat ∧
    Forall (λ e, truthy (Message e)) chat ∧
    length (get_messages chat) = get_chat_len chat.
Proof.
  apply read_messages_no_marks.
  repeat constructor; vm_compute; intros H; discriminate H.
Defined.

(** * More of split_chat_line *)

(** X9: a header line has one reading only: the date, the time, the sender
    and the message are determined by the line. *)
Theorem header_line_unique d t p m d' t' p' m' line :
  header_line d t p m line → header_line d' t' p' m' line →
  d = d' ∧ t = t' ∧ p = p' ∧ m = m'.
Proof.
  intros H H'.
  pose proof (groups_header _ _ _ _ _ H) as Hg.
  pose proof (groups_header _ _ _ _ _ H') as Hg'.
  pose proof (pattern_complete _ _ _ _ _ H) as Hm.
  rewrite (pattern_complete _ _ _ _ _ H') in Hm. apply (inj Some) in Hm.
  rewrite Hm, Hg in Hg'. by injection Hg' as -> -> -> ->.
Qed.

Lemma header_line_unique_witness :
  lit "01.01.23" = lit "01.01.23" ∧ lit "10:00:00" = lit "10:00:00" ∧
  lit "Alice" = lit "Alice" ∧ lit "Hello" = lit "Hello".
Proof.
  apply (header_line_unique _ _ _ _ _ _ _ _ (sub_marks (strip (line_hello ++ [LF]))));
    unfold header_line; (split_and!; try (vm_compute; exact I));
    left; vm_compute; reflexivity.
Defined.

Lemma is_message_no_LF m : is_message m → LF ∉ m.
Proof.
  intros H Hin. apply is_message_inv in H as [_ H].
  rewrite forallb_forall in H. apply list_elem_of_In, H in Hin. done.
Qed.

(** X10: whatever the line, no field of the record that the parser returns
    holds a directionality mark, and the message holds no line feed and no
    white space at its two ends. *)
Theorem split_chat_line_fields line :
  ∃ e, split_chat_line line = Ok e ∧
    (e = no_match ∨
     ∃ d t p m, e = entry d t p m ∧
       is_date d ∧ is_time t ∧ is_person p ∧
       lstrip m = m ∧ rstrip m = m ∧ (LF ∉ m) ∧
       no_marks d ∧ no_marks t ∧ no_marks p ∧ no_marks m).
Proof.
  destruct (split_chat_line_cases line)
    as [(d & t & p & m & H & Hs) | [_ Hs]]; [|by exists no_match; auto].
  exists (entry d t p (strip m)). split; [done|]. right.
  exists d, t, p, (strip m).
  destruct (header_line_no_marks _ _ _ _ _ H) as (? & ? & ? & ?).
  destruct H as (? & ? & ? & Hm & _).
  split_and!; try done.
  - apply lstrip_strip.
  - apply rstrip_strip.
  - intros Hin. by apply strip_elem, is_message_no_LF in Hin.
  - by apply no_marks_strip.
Qed.

Lemma last_header d t p m : is_message m → last (header d t p m) ≠ Some LF.
Proof.
  intros Hm Hl. pose proof (is_message_no_LF _ Hm) as Hno.
  apply is_message_inv in Hm as [Hne _].
  apply last_is_Some in Hne as [x Hx].
  change m with ([] ++ m) in Hl. rewrite header_app, last_app, Hx in Hl.
  injection Hl as ->. by apply last_Some_elem_of in Hx.
Qed.

(** X11: the parser takes a line with or without its line feed: a line feed
    added at the end of a line that has none there changes nothing. *)
Theorem split_chat_line_line_feed line :
  last (sub_marks line) ≠ Some LF →
  split_chat_line (line ++ [LF]) = split_chat_line line.
Proof.
  intros Hlast.
  assert (sub_marks (line ++ [LF]) = sub_marks line ++ [LF]) as Happ
    by by rewrite sub_marks_app.
  destruct (split_chat_line_cases line)
    as [(d & t & p & m & H & ->) | [Hn ->]].
  - apply split_chat_line_header. rewrite Happ.
    destruct H as (? & ? & ? & ? & [Hs | Hs]).
    + rewrite Hs. split_and!; auto.
    + rewrite Hs, last_snoc in Hlast. done.
  - apply split_chat_line_other. rewrite Happ.
    destruct (Re.match_ pattern (sub_marks line ++ [LF])) eqn:E; [|done].
    apply pattern_sound in E as (d & t & p & m & Hd & Ht & Hp & Hm & [Hs | Hs]).
    + exfalso. apply (last_header d t p m Hm). by rewrite <- Hs, last_snoc.
    + apply app_inj_tail in Hs as [Hs _].
      exfalso. eapply header_line_match; [|exact Hn].
      split_and!; eauto.
Qed.

Lemma split_chat_line_line_feed_witness :
  split_chat_line (marked_hello ++ [LF]) = split_chat_line marked_hello.
Proof.
  apply split_chat_line_line_feed. vm_compute. intros H. discriminate H.
Defined.

(** * Line ends *)

Lemma universal_newlines_id text :
  forallb (λ c, negb (c =? CR)) text = true → universal_newlines text = text.
Proof.
  induction text as [|c text IH]; [done|]. simpl. intros H.
  apply andb_prop in H as [Hc H]. apply negb_true_iff in Hc.
  rewrite Hc. by rewrite IH.
Qed.

Lemma universal_newlines_crlf text :
  forallb (λ c, negb (c =? CR)) text = true →
  universal_newlines (crlf text) = text.
Proof.
  induction text as [|c text IH]; [done|]. simpl. intros H.
  apply andb_prop in H as [Hc H]. apply negb_true_iff in Hc.
  destruct (c =? LF) eqn:E.
  - apply N.eqb_eq in E as ->. simpl. by rewrite IH.
  - simpl. rewrite Hc. by rewrite IH.
Qed.

(** X12: the way the line ends are written does not count: a text without
    carriage returns gives the same entries when its line feeds are written
    as carriage return and line feed. *)
Theorem init_crlf text :
  forallb (λ c, negb (c =? CR)) text = true → init (crlf text) = init text.
Proof.
  intros H. unfold init, file_lines.
  by rewrite universal_newlines_crlf, universal_newlines_id.
Qed.

Lemma init_crlf_witness : init (crlf chat_text) = init chat_text.
Proof. apply init_crlf. vm_compute. reflexivity. Defined.

(** * More of the queries *)

Lemma startswith_spec b a : startswith b a = true ↔ ∃ r, b = a ++ r.
Proof.
  revert b. induction a as [|x a IH]; intros b.
  - split; [intros _; by exists b|intros _; by destruct b].
  - destruct b as [|y b]; simpl.
    + split; [done|]. by intros [r ?].
    + rewrite andb_true_iff, N.eqb_eq, IH. split.
      * intros [-> [r ->]]. by exists r.
      * intros [r [= -> ->]]. split; [done|]. by exists r.
Qed.

Lemma str_contains_spec b a : str_contains b a = true ↔ substring a b.
Proof.
  unfold substring. induction b as [|y b IH].
  - cbn [str_contains]. rewrite orb_false_r, startswith_spec. split.
    + intros [r ->]. by exists [], r.
    + intros (l & r & H). symmetry in H.
      apply app_eq_nil in H as [-> H]. apply app_eq_nil in H as [-> ->].
      by exists [].
  - cbn [str_contains]. rewrite orb_true_iff, startswith_spec, IH. split.
    + intros [[r ->] | (l & r & ->)]; [by exists [], r|by exists (y :: l), r].
    + intros (l & r & H). destruct l as [|x l].
      * left. by exists r.
      * injection H as -> ->. right. by exists l, r.
Qed.

Lemma contains_any_spec o filters :
  contains_any o filters ↔
  ∃ f s, f ∈ filters ∧ o = Some s ∧ substring f s.
Proof.
  unfold contains_any. destruct o as [s|].
  - rewrite Is_true_true, existsb_exists. split.
    + intros (f & Hf & H). exists f, s.
      by rewrite list_elem_of_In, <- str_contains_spec.
    + intros (f & s' & Hf & [= <-] & H). exists f.
      by rewrite <- list_elem_of_In, str_contains_spec.
  - split; [done|]. by intros (? & ? & _ & ? & _).
Qed.


Lemma all_stored_ok_chat_three : Forall stored_ok chat_three.
Proof. repeat constructor; eexists; reflexivity. Defined.


Lemma contains_any_nil o : contains_any o [] = false.
Proof. by destruct o. Qed.

(** X14: the filter raises in one case only, and then [TypeError]: there is
    a filter string and some entry has [None] in the selected field.  In
    every other case the result is the list of the entries whose field
    holds one of the filter strings. *)
Theorem get_filtered_chat_result chat filters by_ :
  get_filtered_chat chat filters by_ =
  if decide (filters ≠ [] ∧ Exists (λ e, field by_ e = None) chat)
  then Raise TypeError
  else Ok (filter (λ e, contains_any (field by_ e) filters) chat).
Proof.
  rewrite get_filtered_chat_field.
  destruct filters as [|f fs].
  { rewrite decide_False by (by intros [? _]).
    induction chat as [|e chat IH]; [done|].
    cbn [comprehension]. rewrite IH. simpl.
    rewrite filter_cons_False; [done|]. rewrite contains_any_nil. by intros []. }
  induction chat as [|e chat IH].
  { rewrite decide_False; [done|]. intros [_ H]. by apply Exists_nil in H. }
  cbn [comprehension].
  destruct (field by_ e) as [s|] eqn:E.
  - rewrite any_in_Some, IH. cbn [bind].
    destruct (decide (f :: fs ≠ [] ∧ Exists (λ e, field by_ e = None) chat))
      as [[_ Hex] | Hno].
    + rewrite decide_True; [done|]. split; [done|]. by apply Exists_cons_tl.
    + rewrite decide_False.
      * cbn [bind]. f_equal.
        destruct (existsb (str_contains s) (f :: fs)) eqn:Eb.
        -- rewrite filter_cons_True; [done|]. unfold contains_any.
           by rewrite E, Eb.
        -- rewrite filter_cons_False; [done|]. unfold contains_any.
           rewrite E, Eb. by intros [].
      * intros [_ Hex]. apply Exists_cons in Hex as [Hex|Hex]; [congruence|].
        by apply Hno.
  - rewrite any_in_None by done. cbn [bind].
    rewrite decide_True; [done|]. split; [done|]. by apply Exists_cons_hd.
Qed.

(** X15: the empty string among the filter strings selects every entry of a
    store whose entries have all their fields. *)
Theorem get_filtered_chat_empty_string chat filters by_ :
  Forall stored_ok chat → [] ∈ filters →
  get_filtered_chat chat filters by_ = Ok chat.
Proof.
  intros H Hin. rewrite get_filtered_chat_stored_ok by done. f_equal.
  apply filter_all. intros e He. apply contains_any_spec.
  rewrite Forall_forall in H. destruct (H e He) as (Hd & _ & Hp & Hm).
  assert (is_Some (field by_ e)) as [s Hs] by by destruct by_.
  exists [], s. split_and!; [done..|]. by exists [], s.
Qed.

Lemma get_filtered_chat_empty_string_witness :
  get_filtered_chat chat_three [lit "x"; []] By.Date = Ok chat_three.
Proof.
  apply get_filtered_chat_empty_string.
  - exact all_stored_ok_chat_three.
  - apply list_elem_of_In. right. left. reflexivity.
Defined.




(** * More of the mutations *)

Lemma Person_renamed a b e :
  Person (renamed a b e) =
  if decide (Person e = Some a) then Some b else Person e.
Proof. unfold renamed. by destruct (decide (Person e = Some a)). Qed.

Lemma renamed_same a e : renamed a a e = e.
Proof.
  unfold renamed. destruct (decide (Person e = Some a)) as [H|]; [|done].
  destruct e. simpl in *. by subst.
Qed.

Lemma renamed_idemp a b e : renamed a b (renamed a b e) = renamed a b e.
Proof.
  destruct (decide (a = b)) as [->|Hab]; [by rewrite !renamed_same|].
  apply renamed_other. rewrite Person_renamed.
  destruct (decide (Person e = Some a)); congruence.
Qed.

(** X17: renaming is idempotent, and renaming a sender to its own name
    leaves the store as it is. *)
Theorem rename_person_idemp chat a b :
  rename_person (rename_person chat a b) a b = rename_person chat a b ∧
  rename_person chat a a = chat.
Proof.
  rewrite !rename_person_fmap. split.
  - rewrite <- list_fmap_compose. apply list_fmap_ext.
    intros i e _. apply renamed_idemp.
  - rewrite <- (list_fmap_id chat) at 2. apply list_fmap_ext.
    intros i e _. apply renamed_same.
Qed.

(** X18: after a renaming of [a] to another name [b], where some entry has
    the sender [a], the senders are the senders of before without [a] and,
    unless [b] is the empty string, with [b]. *)
Theorem get_persons_rename chat a b :
  a ≠ b → Exists (λ e, Person e = Some a) chat →
  get_persons (rename_person chat a b) =
  get_persons chat ∖ {[a]} ∪ (if decide (b = []) then ∅ else {[b]}).
Proof.
  intros Hab Hex. apply Exists_exists in Hex as (ea & Hea & Ha).
  rewrite rename_person_fmap. apply set_eq. intros p.
  rewrite elem_of_union, elem_of_difference, elem_of_singleton,
    !elem_of_get_persons.
  split.
  - intros (Hne & e' & He' & Hp).
    apply list_elem_of_fmap in He' as (e & -> & He).
    rewrite Person_renamed in Hp.
    destruct (decide (Person e = Some a)) as [Hpa|Hpa].
    + injection Hp as <-. right. rewrite decide_False by done.
      by apply elem_of_singleton.
    + left. split; [|congruence]. split; [done|]. by exists e.
  - intros [[(Hne & e & He & Hp) Hpa] | Hb].
    + split; [done|]. exists (renamed a b e).
      split; [by apply list_elem_of_fmap_2|].
      rewrite Person_renamed, decide_False by congruence. done.
    + destruct (decide (b = [])); [by apply not_elem_of_empty in Hb|].
      apply elem_of_singleton in Hb as ->. split; [done|].
      exists (renamed a b ea). split; [by apply list_elem_of_fmap_2|].
      by rewrite Person_renamed, decide_True.
Qed.

Lemma get_persons_rename_witness :
  get_persons (rename_person chat_three (lit "Bob") (lit "Robert")) =
  get_persons chat_three ∖ {[lit "Bob"]} ∪
    (if decide (lit "Robert" = []) then ∅ else {[lit "Robert"]}).
Proof.
  apply get_persons_rename.
  - vm_compute. intros H. discriminate H.
  - apply Exists_cons_tl, Exists_cons_hd. reflexivity.
Defined.

(** X19: renaming [a] to [b] and then removing [b] removes the entries of
    both senders, and leaves the others as they were. *)
Theorem remove_person_rename chat a b :
  remove_person (rename_person chat a b) b =
  remove_person (remove_person chat a) b.
Proof.
  rewrite rename_person_fmap. unfold remove_person.
  induction chat as [|e chat IH]; [done|]. rewrite fmap_cons.
  destruct (decide (Person e = Some a)) as [Ha|Ha].
  - rewrite (filter_cons_False _ (renamed a b e))
      by (rewrite Person_renamed, decide_True by done; by intros ?).
    rewrite (filter_cons_False _ e) by (by intros ?). done.
  - rewrite renamed_other by done.
    rewrite (filter_cons_True (λ e, Person e ≠ Some a)) by done.
    destruct (decide (Person e = Some b)) as [Hb|Hb].
    + rewrite !(filter_cons_False (λ e, Person e ≠ Some b))
        by (by intros ?). done.
    + rewrite !(filter_cons_True (λ e, Person e ≠ Some b)) by done.
      by rewrite IH.
Qed.

(** X20: renaming changes no message: [get_messages] returns the same list
    before and after. *)
Theorem get_messages_rename chat a b :
  get_messages (rename_person chat a b) = get_messages chat.
Proof.
  rewrite rename_person_fmap. unfold get_messages.
  assert (∀ e, Message (renamed a b e) = Message e) as Hm.
  { intros e. unfold renamed. by destruct (decide _). }
  induction chat as [|e chat IH]; [done|]. rewrite fmap_cons.
  destruct (truthy (Message e)) eqn:Ht.
  - rewrite !filter_cons_True by (by rewrite ?Hm, Ht).
    cbn [omap list_omap]. by rewrite Hm, IH.
  - rewrite !filter_cons_False by (rewrite ?Hm, Ht; by intros []). done.
Qed.

(** X21: removals commute. *)
Theorem remove_person_comm chat a b :
  remove_person (remove_person chat a) b =
  remove_person (remove_person chat b) a.
Proof.
  unfold remove_person. rewrite !list_filter_filter.
  apply list_filter_iff. tauto.
Qed.

(** X22: removing [a] takes [a], and no other name, out of the senders. *)
Theorem get_persons_remove chat a :
  get_persons (remove_person chat a) = get_persons chat ∖ {[a]}.
Proof.
  apply set_eq. intros p.
  rewrite elem_of_difference, elem_of_singleton, !elem_of_get_persons.
  unfold remove_person. split.
  - intros (Hne & e & He & Hp). apply list_elem_of_filter in He as [Hpa He].
    split; [|congruence]. split; [done|]. by exists e.
  - intros [(Hne & e & He & Hp) Hpa]. split; [done|]. exists e.
    split; [|done]. apply list_elem_of_filter. split; [congruence|done].
Qed.
